(** * Verification of grafana's plugin TypeScript generator

    Shallow embedding of [pkg/codegen/pluggen.go]: the directory walker
    [CuetsifyPlugins], the import translation [convertImport], the
    module-aware loader [loadInstancesWithThema] and the overlay builder
    [toOverlay], over a model of the parts of Go's [strings],
    [path/filepath] and [io/fs] packages that the code calls. *)

From Stdlib Require Import Ascii String ZArith Lia.
From stdpp Require Import base list gmap strings pretty.

Local Open Scope Z_scope.

(** ** Go strings: byte strings *)

(** A Go [string] is a sequence of bytes: Rocq's [string]. *)

Definition dq : string := String "034"%char "".
Definition nl : string := String "010"%char "".
Definition tab : string := String "009"%char "".

Module strings.

Definition len (s : string) : Z := Z.of_nat (String.length s).

(** [strings.HasPrefix(s, prefix)] *)
Fixpoint HasPrefix (s prefix : string) : bool :=
  match prefix, s with
  | "", _ => true
  | String _ _, "" => false
  | String a p', String b s' => if Ascii.eqb a b then HasPrefix s' p' else false
  end.

(** [strings.Contains(s, substr)] *)
Fixpoint Contains (s substr : string) : bool :=
  HasPrefix s substr ||
  match s with
  | "" => false
  | String _ s' => Contains s' substr
  end.

(** [strings.Index(s, substr)]: the index of the first instance of
    [substr] in [s], or -1. *)
Fixpoint Index (s substr : string) : Z :=
  if HasPrefix s substr then 0
  else match s with
       | "" => -1
       | String _ s' => let i := Index s' substr in
                        if i =? -1 then -1 else i + 1
       end.

(** The slice expression [s[i:]]. *)
Fixpoint sliceFrom (s : string) (i : nat) : string :=
  match i, s with
  | O, _ => s
  | S i', String _ s' => sliceFrom s' i'
  | S _, "" => ""
  end.

(** [strings.Split(s, sep)] for a separator of one byte, the only use in
    the code ([strings.Split(im.Path.Value, "/")]): the pieces of [s]
    between the separators, always at least one piece. *)
Fixpoint Split (s : string) (sep : ascii) : list string :=
  match s with
  | "" => [""]
  | String c s' =>
      if Ascii.eqb c sep then "" :: Split s' sep
      else match Split s' sep with
           | [] => [String c ""]
           | piece :: rest => String c piece :: rest
           end
  end.

(** [strings.Join(elems, sep)] *)
Fixpoint Join (elems : list string) (sep : string) : string :=
  match elems with
  | [] => ""
  | [e] => e
  | e :: rest => e +:+ sep +:+ Join rest sep
  end.

Fixpoint inCutset (c : ascii) (cutset : string) : bool :=
  match cutset with
  | "" => false
  | String a cs => Ascii.eqb a c || inCutset c cs
  end.

Fixpoint TrimLeft (s cutset : string) : string :=
  match s with
  | "" => ""
  | String c s' => if inCutset c cutset then TrimLeft s' cutset else s
  end.

Fixpoint TrimRight (s cutset : string) : string :=
  match s with
  | "" => ""
  | String c s' =>
      match TrimRight s' cutset with
      | "" => if inCutset c cutset then "" else String c ""
      | r => String c r
      end
  end.

(** [strings.Trim(s, cutset)]: all leading and trailing bytes of [cutset]
    removed. *)
Definition Trim (s cutset : string) : string :=
  TrimRight (TrimLeft s cutset) cutset.

(** [strings.Replace(s, old, new, -1)] for a non-empty [old] (the code
    passes [".cue"]): every non-overlapping instance of [old], from the
    left, replaced by [new]. [skip] counts the bytes of a matched [old]
    still to be dropped. *)
Fixpoint replaceFrom (skip : nat) (s old new : string) : string :=
  match s with
  | "" => ""
  | String c s' =>
      match skip with
      | S k => replaceFrom k s' old new
      | O => if HasPrefix s old
             then new +:+ replaceFrom (String.length old - 1) s' old new
             else String c (replaceFrom O s' old new)
      end
  end.

Definition ReplaceAll (s old new : string) : string := replaceFrom O s old new.

End strings.

(** ** path/filepath on a Unix system (separator [/]) *)

Module filepath.

Definition slash : ascii := "/"%char.

(** One step of [Clean] on the path elements read so far ([out], last
    element first): an empty element and [.] are dropped, [..] removes
    the element before it, is dropped at the root and is kept at the
    start of a relative path. *)
Definition cleanStep (rooted : bool) (out : list string) (elem : string)
  : list string :=
  if String.eqb elem "" || String.eqb elem "." then out
  else if String.eqb elem ".." then
    match out with
    | top :: out' => if String.eqb top ".." then elem :: out else out'
    | [] => if rooted then [] else [elem]
    end
  else elem :: out.

Definition cleanElems (rooted : bool) (elems : list string) : list string :=
  rev (fold_left (cleanStep rooted) elems []).

(** [filepath.Clean(path)]: the shortest path name equivalent to [path] by
    purely lexical processing; the empty path becomes [.]. *)
Definition Clean (path : string) : string :=
  let rooted := strings.HasPrefix path "/" in
  let out := strings.Join (cleanElems rooted (strings.Split path slash)) "/" in
  if rooted then "/" +:+ out
  else if String.eqb out "" then "." else out.

(** [filepath.Join(elem...)]: leading empty elements are ignored, the rest
    is joined with [/] and cleaned; the result is empty when every
    element is. ([path.Join] agrees with it on Unix.) *)
Fixpoint Join (elem : list string) : string :=
  match elem with
  | [] => ""
  | e :: rest => if String.eqb e "" then Join rest
                 else Clean (strings.Join elem "/")
  end.

(** [path[:i+1]] for [i] the index of the last separator (empty when
    there is none), and [path[i+1:]]. *)
Definition splitLast (path : string) : string * string :=
  match rev (strings.Split path slash) with
  | [] => ("", "")
  | [last] => ("", last)
  | last :: before => (strings.Join (rev before) "/" +:+ "/", last)
  end.

(** [filepath.Dir(path)]: all but the last element of [path], cleaned. *)
Definition Dir (path : string) : string := Clean (fst (splitLast path)).

(** [filepath.Base(path)]: the last element of [path], trailing separators
    removed first; [.] for the empty path, [/] for a path of separators. *)
Definition Base (path : string) : string :=
  if String.eqb path "" then "."
  else match strings.TrimRight path "/" with
       | "" => "/"
       | p => snd (splitLast p)
       end.

(** [filepath.Ext(path)]: the suffix beginning at the final dot in the
    final element of [path]; empty if there is no dot. *)
Fixpoint extOf (elem : string) : string :=
  match elem with
  | "" => ""
  | String c s' =>
      match extOf s' with
      | "" => if Ascii.eqb c "."%char then elem else ""
      | e => e
      end
  end.

Definition Ext (path : string) : string := extOf (snd (splitLast path)).

(** [filepath.IsAbs(path)] *)
Definition IsAbs (path : string) : bool := strings.HasPrefix path "/".

(** [filepath.FromSlash(path)]: the separator is already [/]. *)
Definition FromSlash (path : string) : string := path.

End filepath.


(** ** Results of Go functions *)

(** An [error] is modelled by its message. *)
Definition error := string.

(** A Go function either returns its values with a nil error, returns a
    non-nil error, or panics at run time (an index out of range, a nil
    pointer dereference). *)
Inductive result (A : Type) : Type :=
| Ok (a : A)
| Err (e : error)
| Panic (p : string).
Arguments Ok {A} a.
Arguments Err {A} e.
Arguments Panic {A} p.

(** Sequencing: the first error or panic ends the function
    ([if err != nil { return nil, err }]). *)
Global Instance result_bind : MBind result := λ A B k r,
  match r with
  | Ok a => k a
  | Err e => Err e
  | Panic p => Panic p
  end.

Definition indexOutOfRange : string :=
  "runtime error: index out of range [0] with length 0".
Definition nilDereference : string :=
  "runtime error: invalid memory address or nil pointer dereference".

(** ** io/fs: file trees and WalkDir *)

Module fs.

(** An [fs.FS] held in memory (the code walks [embed.FS] values): a
    regular file with its bytes, or with the error that opening or reading
    it gives; a directory with its entries in the order [fs.ReadDir]
    reports them, which is sorted by file name. *)
#[warnings="-register-all"]
Inductive FS : Type :=
| File (data : error + string)
| Directory (entries : list (string * FS)).

Record DirEntry := { Name : string; IsDir : bool }.

Definition isDirectory (n : FS) : bool :=
  match n with Directory _ => true | File _ => false end.

Fixpoint find (name : string) (entries : list (string * FS)) : option FS :=
  match entries with
  | [] => None
  | (n, c) :: rest => if String.eqb n name then Some c else find name rest
  end.

Fixpoint lookup (fsys : FS) (elems : list string) : option FS :=
  match elems with
  | [] => Some fsys
  | e :: rest =>
      match fsys with
      | Directory entries =>
          match find e entries with
          | Some c => lookup c rest
          | None => None
          end
      | File _ => None
      end
  end.

(** The file or directory that [name] (slash-separated, [.] for the root)
    names in [fsys]. *)
Definition stat (fsys : FS) (name : string) : option FS :=
  if String.eqb name "." then Some fsys
  else lookup fsys (strings.Split name filepath.slash).

Definition notExist (op name : string) : error :=
  op +:+ " " +:+ name +:+ ": file does not exist".

(** [fsys.Open(name)] followed by [io.ReadAll]: the bytes of a regular
    file. *)
Definition ReadFile (fsys : FS) (name : string) : error + string :=
  match stat fsys name with
  | Some (File data) => data
  | Some (Directory _) => inl ("read " +:+ name +:+ ": is a directory")
  | None => inl (notExist "open" name)
  end.

(** What a [WalkDirFunc] returns: nil, [fs.SkipDir], another error; or it
    panics. *)
Inductive signal :=
| Nil
| SkipDir
| Error (e : error)
| Panicked (p : string).

Section WalkDir.
(** The variables a [WalkDirFunc] closure captures and updates. *)
Context {S : Type}.
Variable fn : string → DirEntry → option error → S → S * signal.

(** [walkDir]: the function is called on the entry itself, then, for a
    directory it did not skip, on each of its entries in order.
    [SkipDir] from a directory skips it; [SkipDir] from a file skips the
    rest of the directory the file is in. *)
Fixpoint walkDir (name : string) (d : DirEntry) (n : FS) (s : S) : S * signal :=
  let '(s1, r) := fn name d None s in
  match r with
  | Nil =>
      match n with
      | File _ => (s1, Nil)
      | Directory entries =>
          (fix walkEntries (entries : list (string * FS)) (s : S) : S * signal :=
             match entries with
             | [] => (s, Nil)
             | (n1, c) :: rest =>
                 let name1 := filepath.Join [name; n1] in
                 let '(s2, r1) :=
                   walkDir name1 {| Name := n1; IsDir := isDirectory c |} c s in
                 match r1 with
                 | Nil => walkEntries rest s2
                 | SkipDir => (s2, Nil)
                 | _ => (s2, r1)
                 end
             end) entries s1
      end
  | SkipDir => (s1, if IsDir d then Nil else SkipDir)
  | _ => (s1, r)
  end.

(** [fs.WalkDir(fsys, root, fn)]: when [root] cannot be found, the
    function is called once with the error; [SkipDir] at the top is
    no error. *)
Definition WalkDir (fsys : FS) (root : string) (s : S) : S * signal :=
  let '(s1, r) :=
    match stat fsys root with
    | None => fn root {| Name := filepath.Base root; IsDir := false |}
                 (Some (notExist "stat" root)) s
    | Some n => walkDir root {| Name := filepath.Base root;
                               IsDir := isDirectory n |} n s
    end in
  (s1, match r with SkipDir => Nil | _ => r end).
End WalkDir.

End fs.

(** ** The CUE packages the generator calls, at their interface *)

Module ast.
(** [ast.ImportSpec]: [Name] is the local name the package is imported
    under (nil, or an identifier); [PathValue] is [Path.Value], the path
    literal as written in the file, with its quotes. *)
Record ImportSpec := { Name : option string; PathValue : string }.

(** Line 131: the import path, which is [Path.Value] with the double
    quotes at its ends removed by [strings.Trim]. *)
Definition importPath (im : ImportSpec) : string :=
  strings.Trim (PathValue im) dq.

(** [ast.File], of which the code reads [Imports] only. *)
Record File := { Imports : list ImportSpec }.
End ast.

Module load.
(** [load.Config], the fields the code sets. [Overlay] maps an absolute
    path to the source bytes held at it ([load.FromBytes]). *)
Record Config := {
  Overlay : gmap string string;
  ModuleRoot : string;
  Module : string;
  Dir : string;
  Package : string;
}.
End load.

(** ** pluggen.go *)

(** The only import statement allowed in a models.cue file. *)
Definition schemasPath : string :=
  "github.com/grafana/grafana/packages/grafana-schema/src/schema".

(** CUE import paths, mapped to TypeScript import paths; an empty value
    drops the import. *)
Definition importMap : gmap string string :=
  <["github.com/grafana/thema" := ""]> (<[schemasPath := "@grafana/schema"]> ∅).

(** [importMap[k]]: the zero value for a key that is absent. *)
Definition importMapAt (k : string) : string := default "" (importMap !! k).

Definition skipPaths : list string := [
  "public/app/plugins/panel/barchart/models.cue";
  "public/app/plugins/panel/canvas/models.cue";
  "public/app/plugins/panel/histogram/models.cue";
  "public/app/plugins/panel/heatmap-new/models.cue";
  "public/app/plugins/panel/candlestick/models.cue";
  "public/app/plugins/panel/state-timeline/models.cue";
  "public/app/plugins/panel/status-history/models.cue";
  "public/app/plugins/panel/table/models.cue";
  "public/app/plugins/panel/timeseries/models.cue"
].

Definition prefix : string := "/".

Record tsImport := { Ident : string; Pkg : string }.

Record tsFile := {
  V : N * N;
  WriteModelVersion : bool;
  Imports : list tsImport;
  Body : string;
}.

(** [convertImport] (lines 182-198). The import is named when [im.Name] is
    not nil and its string is not empty. *)
Definition convertImport (im : ast.ImportSpec) : tsImport :=
  let tsim := {| Ident := ""; Pkg := importMapAt schemasPath |} in
  match ast.Name im with
  | Some (String _ _ as name) => {| Ident := name; Pkg := Pkg tsim |}
  | _ =>
      let sl := strings.Split (ast.PathValue im) "/"%char in
      let final := List.last sl "" in
      let idx := strings.Index final ":" in
      if negb (idx =? -1)
      then {| Ident := Ident tsim; Pkg := strings.sliceFrom final (Z.to_nat idx) |}
      else {| Ident := Ident tsim; Pkg := final |}
  end.

Definition themamodpath : string :=
  filepath.Join ["cue.mod"; "pkg"; "github.com"; "grafana"; "thema"].

(** [toOverlay] (lines 294-332): every regular file of [vfs] is read and
    stored at [prefix] joined with its path. *)
Definition toOverlayFn (prefix : string) (vfs : fs.FS)
    (path : string) (d : fs.DirEntry) (err : option error)
    (overlay : gmap string string) : gmap string string * fs.signal :=
  match err with
  | Some e => (overlay, fs.Error e)
  | None =>
      if fs.IsDir d then (overlay, fs.Nil)
      else match fs.ReadFile vfs path with
           | inl e => (overlay, fs.Error e)
           | inr b => (<[filepath.Join [prefix; path] := b]> overlay, fs.Nil)
           end
  end.

(** The two generation strategies of the [switch] at line 101. *)
Inductive strategy := Generic | Plugin.

(** The packages outside this repository, at the interface the code uses:
    [fmt], CUE ([load], [parser], [cue], [errors]), thema and cuetsy, and the
    three embedded file systems. *)
Class Externals := {
  (** [fmt]'s [%q] verb ([strconv.Quote]) *)
  Quote : string → string;
  (** [*build.Instance] and [inst.Err] *)
  Inst : Type;
  InstErr : Inst → option error;
  (** [load.Instances(nil, cfg)] *)
  Instances : load.Config → list Inst;
  (** [cuecontext.New().CompileBytes(b).LookupPath(cue.MakePath(cue.Str("module"))).String()] *)
  moduleName : string → result string;
  (** [cue.Value] and [thema.Lineage] *)
  Value : Type;
  Lineage : Type;
  (** [ctx.BuildInstance(inst)] *)
  BuildInstance : Inst → Value;
  (** [v.LookupPath(cue.ParsePath(p))] *)
  LookupPath : Value → string → Value;
  (** [thema.BindLineage(v, lib)] *)
  BindLineage : Value → result Lineage;
  (** [thema.LatestVersion(lin)], a [SyntacticVersion], which is [[2]uint] *)
  LatestVersion : Lineage → N * N;
  (** [thema.SchemaP(lin, v).UnwrapCUE()] *)
  SchemaP : Lineage → N * N → Value;
  (** [cuetsy.Generate(v, cuetsy.Config{})] *)
  Generate : Value → result string;
  (** [parser.ParseFile(filename, src, parser.ParseComments)]: [src] is the
      opened file (its bytes), or nil. Both values are returned: on a syntax
      error the parser gives a partial file together with the error. *)
  ParseFile : string → option string → option ast.File * option error;
  (** [errors.Details(err, nil)] *)
  Details : error → string;
  (** [grafana.CueSchemaFS], [thema.CueFS] and [thema.CueJointFS] *)
  CueSchemaFS : fs.FS;
  CueFS : fs.FS;
  CueJointFS : fs.FS;
}.

Section Codegen.

Context {ext : Externals}.

(** The order in which [range importMap] yields the keys; Go leaves it
    unspecified. *)
Variable rangeImportMap : list string.

Definition toOverlay (prefix : string) (vfs : fs.FS)
    (overlay : gmap string string) : result (gmap string string) :=
  if negb (filepath.IsAbs prefix) then
    Err ("must provide absolute path prefix when generating cue overlay, got "
         +:+ Quote prefix)
  else
    let '(overlay, r) := fs.WalkDir (toOverlayFn prefix vfs) vfs "." overlay in
    match r with
    | fs.Error e => Err e
    | fs.Panicked p => Panic p
    | _ => Ok overlay
    end.

(** *** The loader (lines 204-292) *)

(** The function given to [fs.WalkDir] at line 206; it assigns [modname]. *)
Definition moduleWalkFn (modFS : fs.FS)
    (path : string) (d : fs.DirEntry) (err : option error)
    (modname : string) : string * fs.signal :=
  let normpath := filepath.FromSlash path in
  match err with
  | Some e => (modname, fs.Error e)
  | None =>
      if fs.IsDir d then
        if String.eqb normpath (filepath.Join ["cue.mod"; "gen"])
           || String.eqb normpath (filepath.Join ["cue.mod"; "usr"])
        then (modname, fs.SkipDir)
        else if String.eqb normpath themamodpath
        then (modname,
              fs.Error ("path " +:+ Quote themamodpath +:+
                " already exists in modFS passed to InstancesWithThema, must be absent for dynamic dependency injection"))
        else (modname, fs.Nil)
      else if String.eqb normpath (filepath.Join ["cue.mod"; "module.cue"]) then
        match fs.ReadFile modFS path with
        | inl e => (modname, fs.Error e)
        | inr b =>
            match moduleName b with
            | Err e => ("", fs.Error e)
            | Panic p => (modname, fs.Panicked p)
            | Ok m =>
                if String.eqb m ""
                then (m, fs.Error "InstancesWithThema requires non-empty module name in modFS' cue.mod/module.cue")
                else (m, fs.Nil)
            end
        end
      else (modname, fs.Nil)
  end.

(** Lines 205-251: the module name that [cue.mod/module.cue] declares. *)
Definition findModule (modFS : fs.FS) : result string :=
  let '(modname, r) := fs.WalkDir (moduleWalkFn modFS) modFS "cue.mod" "" in
  match r with
  | fs.Error e => Err e
  | fs.Panicked p => Panic p
  | _ => if String.eqb modname ""
         then Err "cue.mod/module.cue did not exist"
         else Ok modname
  end.

Definition themaModule : string := "github.com/grafana/thema".

(** Lines 253-268: the overlay of the module and of thema.
    [tload.ToOverlay] is the function [toOverlay] was copied from
    (line 59 calls either). *)
Definition themaOverlay (modFS : fs.FS) (modname : string)
  : result (gmap string string) :=
  let modroot := filepath.FromSlash (filepath.Join ["/"; modname]) in
  overlay ← toOverlay modroot modFS ∅;
  if String.eqb modname themaModule
  then toOverlay modroot CueJointFS overlay
  else toOverlay (filepath.Join [modroot; themamodpath]) CueFS overlay.

(** Lines 270-284: the load configuration. *)
Definition themaConfig (overlay : gmap string string)
    (modname dir pkgname : string) : load.Config :=
  let modroot := filepath.FromSlash (filepath.Join ["/"; modname]) in
  let dir := if String.eqb dir "" then "." else dir in
  if String.eqb dir "." then
    {| load.Overlay := overlay; load.ModuleRoot := modroot;
       load.Module := modname; load.Dir := modroot;
       load.Package := filepath.Base modroot |}
  else
    {| load.Overlay := overlay; load.ModuleRoot := modroot;
       load.Module := modname; load.Dir := filepath.Join [modroot; dir];
       load.Package := pkgname |}.

(** Lines 286-291: [load.Instances(nil, cfg)[0]]. *)
Definition firstInstance (cfg : load.Config) : result Inst :=
  match Instances cfg with
  | [] => Panic indexOutOfRange
  | inst :: _ =>
      match InstErr inst with
      | Some e => Err e
      | None => Ok inst
      end
  end.

Definition loadInstancesWithThema (modFS : fs.FS) (dir pkgname : string)
  : result Inst :=
  modname ← findModule modFS;
  overlay ← themaOverlay modFS modname;
  firstInstance (themaConfig overlay modname dir pkgname).

(** *** The walker (lines 54-180) *)

(** [exclude] (lines 64-72). *)
Definition exclude (path : string) : bool :=
  existsb (String.eqb path) skipPaths
  || String.eqb (filepath.Dir path) "cue.mod".

(** Lines 135-139: the error for an import that is not in [importMap]. *)
Definition importNotAllowed (path ip : string) : error :=
  let all := map (λ im, tab +:+ im) rangeImportMap in
  path +:+ ": import " +:+ Quote ip +:+
  " not allowed, panel plugins may only import from:" +:+ nl +:+
  strings.Join all nl +:+ nl.

(** Lines 129-148: the loop over [pf.Imports]; [iseen] holds the import
    paths already converted, [imports] is [f.Imports]. *)
Fixpoint importsLoop (path : string) (ims : list ast.ImportSpec)
    (iseen : gset string) (imports : list tsImport) : result (list tsImport) :=
  match ims with
  | [] => Ok imports
  | im :: rest =>
      let ip := ast.importPath im in
      match importMap !! ip with
      | None => Err (importNotAllowed path ip)
      | Some mappath =>
          if negb (String.eqb mappath "") && negb (bool_decide (ip ∈ iseen))
          then importsLoop path rest ({[ip]} ∪ iseen) (imports ++ [convertImport im])
          else importsLoop path rest iseen imports
      end
  end.

(** The default case (lines 102-112). [clcfg] has its [Dir] set. *)
Definition generic (clcfg : load.Config) (path : string) : result tsFile :=
  let insts := Instances clcfg in
  if 1 <? Z.of_nat (length insts)
  then Err (path +:+ ": resulted in more than one instance")
  else
    match insts with
    | [] => Panic indexOutOfRange
    | inst :: _ =>
        let v := BuildInstance inst in
        b ← Generate v;
        Ok {| V := (0, 0)%N; WriteModelVersion := false; Imports := []; Body := b |}
    end.

(** The case of panel plugins (lines 114-162). The errors of [in.Open] and
    of [parser.ParseFile] are assigned to the blank identifier. *)
Definition plugin (inFS : fs.FS) (path dir : string) : result tsFile :=
  match loadInstancesWithThema inFS dir "grafanaschema" with
  | Err e => Err ("could not load CUE instance for " +:+ dir +:+ ": " +:+ e)
  | Panic p => Panic p
  | Ok inst =>
      let src := match fs.ReadFile inFS path with
                 | inl _ => None
                 | inr b => Some b
                 end in
      let '(pf, _) := ParseFile (filepath.Base path) src in
      match pf with
      | None => Panic nilDereference
      | Some pf =>
          imports ← importsLoop path (ast.Imports pf) ∅ [];
          let v := BuildInstance inst in
          match BindLineage (LookupPath v "Panel") with
          | Err e => Err (path +:+ ": failed to bind lineage: " +:+ e)
          | Panic p => Panic p
          | Ok lin =>
              let ver := LatestVersion lin in
              b ← Generate (SchemaP lin ver);
              Ok {| V := ver; WriteModelVersion := true;
                    Imports := imports; Body := b |}
          end
      end
  end.

(** [tsTemplate] (lines 346-356), executed on [f]. The template reads
    fields that exist and indexes a two-element array at 0 and 1, and a
    [bytes.Buffer] takes every write: [Execute] returns a nil error. *)
Definition tsHeader : string :=
  "//~~~~~~~~~~~~~~~~~~~~~~~~~~~~~~~~~~~~~~~~~~~~~~~~~~~~~~~~~~~~~~~~~~~~~~~~~~~~~" +:+ nl +:+
  "// This file is autogenerated. DO NOT EDIT." +:+ nl +:+
  "//" +:+ nl +:+
  "// To regenerate, run " +:+ dq +:+ "make gen-cue" +:+ dq +:+
  " from the repository root." +:+ nl +:+
  "//~~~~~~~~~~~~~~~~~~~~~~~~~~~~~~~~~~~~~~~~~~~~~~~~~~~~~~~~~~~~~~~~~~~~~~~~~~~~~" +:+ nl.

Definition tsImportLine (im : tsImport) : string :=
  nl +:+ "import * as " +:+ Ident im +:+ " from '" +:+ Pkg im +:+ "';".

Definition tsVersion (f : tsFile) : string :=
  if WriteModelVersion f then
    nl +:+ "export const modelVersion = Object.freeze([" +:+ pretty (fst (V f))
    +:+ ", " +:+ pretty (snd (V f)) +:+ "]);" +:+ nl
  else "".

Definition tsTemplate (f : tsFile) : string :=
  tsHeader +:+ strings.Join (map tsImportLine (Imports f)) "" +:+ nl +:+
  tsVersion f +:+ nl +:+ Body f.

(** The variables the walk function updates: [seen] (line 85) and
    [outfiles] (line 82). [routed] is a ghost variable: the files that
    passed the test of line 92, each with the strategy it is given to, in
    the order they are reached. *)
Record walkState := {
  seen : gset string;
  outfiles : gmap string string;
  routed : list (string * strategy);
}.

Definition strategyOf (path : string) : strategy :=
  if strings.Contains path "public/app/plugins" then Plugin else Generic.

(** The test of line 92 apart from [seen[dir]]: a file the walker may
    route. *)
Definition qualifies (path : string) (d : fs.DirEntry) : bool :=
  negb (fs.IsDir d || negb (String.eqb (filepath.Ext (fs.Name d)) ".cue")
        || exclude path).

(** [clcfg] (lines 75-80), with [Dir] as line 96 sets it for the
    directory [dir]. *)
Definition clcfg (root : string) (overlay : gmap string string) (dir : string)
  : load.Config :=
  {| load.Overlay := overlay; load.ModuleRoot := prefix;
     load.Module := "github.com/grafana/grafana";
     load.Dir := filepath.Join [root; dir];
     load.Package := "" |}.

(** The function given to [fs.WalkDir] at line 86. *)
Definition cuetsifyFn (root : string) (overlay : gmap string string)
    (inFS : fs.FS) (path : string) (d : fs.DirEntry) (err : option error)
    (st : walkState) : walkState * fs.signal :=
  match err with
  | Some e => (st, fs.Error e)
  | None =>
      let dir := filepath.Dir path in
      if fs.IsDir d || negb (String.eqb (filepath.Ext (fs.Name d)) ".cue")
         || bool_decide (dir ∈ seen st) || exclude path
      then (st, fs.Nil)
      else
        let st := {| seen := {[dir]} ∪ seen st; outfiles := outfiles st;
                     routed := routed st ++ [(path, strategyOf path)] |} in
        let r := match strategyOf path with
                 | Plugin => plugin inFS path dir
                 | Generic => generic (clcfg root overlay dir) path
                 end in
        match r with
        | Err e => (st, fs.Error e)
        | Panic p => (st, fs.Panicked p)
        | Ok f =>
            let out := filepath.Join
                         [root; strings.ReplaceAll path ".cue" ".gen.ts"] in
            ({| seen := seen st; outfiles := <[out := tsTemplate f]> (outfiles st);
                routed := routed st |}, fs.Nil)
        end
  end.

(** [cuetsify] (lines 84-172). *)
Definition cuetsify (root : string) (overlay : gmap string string)
    (inFS : fs.FS) (outfiles : gmap string string) : walkState * fs.signal :=
  fs.WalkDir (cuetsifyFn root overlay inFS) inFS "."
    {| seen := ∅; outfiles := outfiles; routed := [] |}.

(** [CuetsifyPlugins] (lines 54-180); the result is the [WriteDiffer], a
    map from path to bytes. *)
Definition CuetsifyPlugins (root : string) : result (gmap string string) :=
  overlay ← toOverlay prefix CueSchemaFS ∅;
  let '(st, r) := cuetsify root overlay CueSchemaFS ∅ in
  match r with
  | fs.Error e => Err (Details e)
  | fs.Panicked p => Panic p
  | _ => Ok (outfiles st)
  end.

End Codegen.

(** ** Definitions of the specification *)

(** The paths [iseen] holds after the loop went over [ims]. *)
Definition seenAfter (ims : list ast.ImportSpec) (iseen : gset string) : gset string :=
  foldl (λ seen im,
           match importMap !! ast.importPath im with
           | Some mappath =>
               if negb (String.eqb mappath "")
                  && negb (bool_decide (ast.importPath im ∈ seen))
               then {[ast.importPath im]} ∪ seen else seen
           | None => seen
           end) iseen ims.

(** *** Concrete inputs

    A small instance of the external packages, to run the model: an instance
    is the directory it was loaded from, a value and a lineage are the text
    they stand for, and the parser reads each line of a file that starts
    with a double quote as one import path literal without alias and reports
    a syntax error for a file that holds an exclamation mark. *)
Definition plainQuote (s : string) : string := dq +:+ s +:+ dq.

Definition toyParseFile (filename : string) (src : option string)
  : option ast.File * option error :=
  match src with
  | None => (None, Some ("open " +:+ filename +:+ ": no such file or directory"))
  | Some b =>
      (Some {| ast.Imports :=
                 map (λ l, {| ast.Name := None; ast.PathValue := l |})
                   (filter (λ l, strings.HasPrefix l dq = true)
                      (strings.Split b "010"%char)) |},
       if strings.Contains b "!" then Some (filename +:+ ": syntax error") else None)
  end.

Definition toyLibrary : fs.FS :=
  fs.Directory [("lineage.cue", fs.File (inr "package thema"))].

Definition toyExternals (schemaFS : fs.FS)
    (instances : load.Config → list string) : Externals := {|
  Quote := plainQuote;
  Inst := string;
  InstErr := λ _, None;
  Instances := instances;
  moduleName := Ok;
  Value := string;
  Lineage := string;
  BuildInstance := id;
  LookupPath := λ v _, v;
  BindLineage := Ok;
  LatestVersion := λ _, (1, 0)%N;
  SchemaP := λ lin _, lin;
  Generate := λ v, Ok ("// " +:+ v);
  ParseFile := toyParseFile;
  Details := id;
  CueSchemaFS := schemaFS;
  CueFS := toyLibrary;
  CueJointFS := toyLibrary;
|}.

(** Every directory resolves to one instance; to none; to two. *)
Definition oneInstance (cfg : load.Config) : list string := [load.Dir cfg].
Definition noInstance (cfg : load.Config) : list string := [].
Definition twoInstances (cfg : load.Config) : list string :=
  [load.Dir cfg; load.Dir cfg].

Definition emptyFS : fs.FS := fs.Directory [].

Definition themaImport : ast.ImportSpec :=
  {| ast.Name := None; ast.PathValue := dq +:+ "github.com/grafana/thema" +:+ dq |}.
Definition schemaImport : ast.ImportSpec :=
  {| ast.Name := None; ast.PathValue := dq +:+ schemasPath +:+ dq |}.
Definition uiImport : ast.ImportSpec :=
  {| ast.Name := Some "ui"; ast.PathValue := dq +:+ schemasPath +:+ dq |}.

(** A module tree with one panel plugin, and the overlay the loader builds
    for it. *)
Definition pluginModels : string :=
  dq +:+ "github.com/grafana/thema" +:+ dq +:+ nl +:+ dq +:+ schemasPath +:+ dq.

Definition pluginTree : fs.FS := fs.Directory [
  ("cue.mod", fs.Directory [
     ("module.cue", fs.File (inr "github.com/grafana/grafana"))]);
  ("public", fs.Directory [("app", fs.Directory [("plugins", fs.Directory [
     ("panel", fs.Directory [("gauge", fs.Directory [
        ("models.cue", fs.File (inr pluginModels))])])])])])].

Definition pluginOverlay : gmap string string :=
  match themaOverlay (ext := toyExternals emptyFS oneInstance) pluginTree
          "github.com/grafana/grafana" with
  | Ok overlay => overlay
  | _ => ∅
  end.

(** A tree whose module-metadata directory holds a schema file in a
    subdirectory, next to two schema files at the root. *)
Definition vendoredTree : fs.FS := fs.Directory [
  ("cue.mod", fs.Directory [
     ("module.cue", fs.File (inr "github.com/grafana/grafana"));
     ("pkg", fs.Directory [("schema.cue", fs.File (inr "package pkg"))])]);
  ("kinds", fs.Directory [
     ("dashboard.cue", fs.File (inr "package kinds"));
     ("playlist.cue", fs.File (inr "package kinds"))])].

(** A plugin whose models.cue the parser reports a syntax error for. *)
Definition brokenModels : string :=
  dq +:+ schemasPath +:+ dq +:+ nl +:+ "Panel: {!".

Definition brokenTree : fs.FS := fs.Directory [
  ("cue.mod", fs.Directory [
     ("module.cue", fs.File (inr "github.com/grafana/grafana"))]);
  ("public", fs.Directory [("app", fs.Directory [("plugins", fs.Directory [
     ("panel", fs.Directory [("gauge", fs.Directory [
        ("models.cue", fs.File (inr brokenModels))])])])])])].

(** A tree with a directory whose name holds the schema extension. *)
Definition dottedTree : fs.FS := fs.Directory [
  ("schemas.cue.d", fs.Directory [
     ("types.cue", fs.File (inr "package schemas"))])].

(** *** Well-formed trees

    [io/fs] names a file by a path whose elements are not empty, hold no
    slash and are neither [.] nor [..] ([fs.ValidPath]), and a directory
    has one entry for a name. [pathOf] is the path of the file reached
    through the elements [es], the root being [.]. *)
Fixpoint noSlash (s : string) : bool :=
  match s with
  | "" => true
  | String c s' => negb (Ascii.eqb c "/"%char) && noSlash s'
  end.

Definition validName (e : string) : bool :=
  noSlash e && negb (String.eqb e "") && negb (String.eqb e ".")
  && negb (String.eqb e "..").

Fixpoint validNames (n : fs.FS) : bool :=
  match n with
  | fs.File _ => true
  | fs.Directory es =>
      (fix go (es : list (string * fs.FS)) : bool :=
         match es with
         | [] => true
         | (n1, c) :: rest =>
             validName n1 && negb (existsb (String.eqb n1) rest.*1)
             && validNames c && go rest
         end) es
  end.

Definition pathOf (es : list string) : string :=
  match es with
  | [] => "."
  | _ => strings.Join es "/"
  end.

(** *** The walk as a list

    The entries [fs.WalkDir] reaches when no directory is skipped, in the
    order it reaches them, and a walk function run over such a list up to
    its first error. *)
Fixpoint entries (name : string) (d : fs.DirEntry) (n : fs.FS)
  : list (string * fs.DirEntry) :=
  (name, d) ::
  match n with
  | fs.File _ => []
  | fs.Directory es =>
      (fix entriesOf (es : list (string * fs.FS)) : list (string * fs.DirEntry) :=
         match es with
         | [] => []
         | (n1, c) :: rest =>
             entries (filepath.Join [name; n1])
               {| fs.Name := n1; fs.IsDir := fs.isDirectory c |} c
             ++ entriesOf rest
         end) es
  end.

Definition rootEntries (fsys : fs.FS) : list (string * fs.DirEntry) :=
  entries "." {| fs.Name := "."; fs.IsDir := fs.isDirectory fsys |} fsys.

Fixpoint walkList {S : Type}
    (fn : string → fs.DirEntry → option error → S → S * fs.signal)
    (l : list (string * fs.DirEntry)) (s : S) : S * fs.signal :=
  match l with
  | [] => (s, fs.Nil)
  | (name, d) :: rest =>
      let '(s1, r) := fn name d None s in
      match r with
      | fs.Nil => walkList fn rest s1
      | _ => (s1, r)
      end
  end.

(** *** One file for each directory

    In the words of the specification: of the qualifying files of a
    directory, the walker routes the first in walk order. [sameDirEarlier]
    tells whether a qualifying file of the directory of [path] is among the
    entries [pre] reached before; [representatives] keeps the qualifying
    files that have none. *)
Definition sameDirEarlier (pre : list (string * fs.DirEntry)) (path : string) : bool :=
  existsb (λ e, qualifies e.1 e.2
                && String.eqb (filepath.Dir e.1) (filepath.Dir path)) pre.

Fixpoint representativesFrom (pre l : list (string * fs.DirEntry)) : list string :=
  match l with
  | [] => []
  | e :: rest =>
      (if qualifies e.1 e.2 && negb (sameDirEarlier pre e.1) then [e.1] else [])
      ++ representativesFrom (pre ++ [e]) rest
  end.

Definition representatives (l : list (string * fs.DirEntry)) : list string :=
  representativesFrom [] l.

(** [seen] holds the directories of the qualifying files reached so far. *)
Definition seenCovers (pre : list (string * fs.DirEntry)) (st : walkState) : Prop :=
  ∀ path, bool_decide (filepath.Dir path ∈ seen st) = sameDirEarlier pre path.

(** A library tree with a file that cannot be read, and the overlay built
    from the small library at [/lib]. *)
Definition unreadableTree : fs.FS := fs.Directory [
  ("a.cue", fs.File (inr "package a"));
  ("b.cue", fs.File (inl "open b.cue: permission denied"));
  ("c.cue", fs.File (inr "package c"))].

Definition libraryOverlay : gmap string string :=
  match toOverlay (ext := toyExternals emptyFS oneInstance) "/lib" toyLibrary ∅ with
  | Ok overlay => overlay
  | _ => ∅
  end.

(** A module tree that already holds a directory for thema below
    [cue.mod/pkg]. *)
Definition themaVendoredTree : fs.FS := fs.Directory [
  ("cue.mod", fs.Directory [
     ("module.cue", fs.File (inr "github.com/grafana/grafana"));
     ("pkg", fs.Directory [("github.com", fs.Directory [
        ("grafana", fs.Directory [("thema", fs.Directory [])])])])])].

(** [onPath fn name es]: on the way from the directory [name] through the
    elements [es], the walk function returns nil for each directory but the
    last, and an error (or a panic) for the last. *)
Definition isError (r : fs.signal) : Prop :=
  match r with
  | fs.Error _ | fs.Panicked _ => True
  | _ => False
  end.

Fixpoint onPath {S : Type}
    (fn : string → fs.DirEntry → option error → S → S * fs.signal)
    (name : string) (es : list string) : Prop :=
  match es with
  | [] => ∀ d s, fs.IsDir d = true → isError (fn name d None s).2
  | e :: rest =>
      (∀ d s, fs.IsDir d = true → (fn name d None s).2 = fs.Nil)
      ∧ onPath fn (filepath.Join [name; e]) rest
  end.

(** Line 169: the path an output is written at. *)
Definition outputPath (root path : string) : string :=
  filepath.Join [root; strings.ReplaceAll path ".cue" ".gen.ts"].

(** The thema module itself as input, with a file that the joint sources
    also hold, under other bytes. *)
Definition selfHostedTree : fs.FS := fs.Directory [
  ("cue.mod", fs.Directory [
     ("module.cue", fs.File (inr "github.com/grafana/thema"))]);
  ("lineage.cue", fs.File (inr "package mine"))].

(** The elements of [themamodpath]. *)
Definition themamodElems : list string :=
  ["cue.mod"; "pkg"; "github.com"; "grafana"; "thema"].

(** * Properties *)

(** ** The model of the Go library on examples *)

Example Clean_ex1 : filepath.Clean "a//b/./c/.." = "a/b". Proof. reflexivity. Qed.
Example Clean_ex2 : filepath.Clean "/../a/../.." = "/". Proof. reflexivity. Qed.
Example Clean_ex3 : filepath.Clean "../../a/.." = "../..". Proof. reflexivity. Qed.
Example Clean_ex4 : filepath.Clean "" = ".". Proof. reflexivity. Qed.
Example Dir_ex1 : filepath.Dir "public/app/plugins/panel/x/models.cue" = "public/app/plugins/panel/x". Proof. reflexivity. Qed.
Example Dir_ex2 : filepath.Dir "models.cue" = ".". Proof. reflexivity. Qed.
Example Dir_ex3 : filepath.Dir "/models.cue" = "/". Proof. reflexivity. Qed.
Example Ext_ex1 : filepath.Ext "a.b/models.cue" = ".cue". Proof. reflexivity. Qed.
Example Ext_ex2 : filepath.Ext "a.b/models" = "". Proof. reflexivity. Qed.
Example Base_ex1 : filepath.Base "/github.com/grafana/grafana" = "grafana". Proof. reflexivity. Qed.
Example Base_ex2 : filepath.Base "///" = "/". Proof. reflexivity. Qed.
Example Join_ex1 : filepath.Join ["/"; "github.com/grafana/thema"] = "/github.com/grafana/thema". Proof. reflexivity. Qed.
Example Join_ex2 : filepath.Join [""; "a"; ""; "b/"] = "a/b". Proof. reflexivity. Qed.
Example Join_ex3 : filepath.Join ["."; "x"] = "x". Proof. reflexivity. Qed.
Example Replace_ex1 : strings.ReplaceAll "a.cue.d/x.cue" ".cue" ".gen.ts" = "a.gen.ts.d/x.gen.ts". Proof. reflexivity. Qed.
Example Trim_ex1 : strings.Trim (dq +:+ dq +:+ "a" +:+ dq +:+ "b" +:+ dq) dq = "a" +:+ dq +:+ "b". Proof. reflexivity. Qed.
Example Split_ex1 : strings.Split "a//b/" "/"%char = ["a"; ""; "b"; ""]. Proof. reflexivity. Qed.
Example Index_ex1 : strings.Index "ab:c:d" ":" = 2. Proof. reflexivity. Qed.
Example Index_ex2 : strings.Index "abc" ":" = -1. Proof. reflexivity. Qed.

(** ** Byte strings *)

Lemma app_cons (a : ascii) (s t : string) : String a s +:+ t = String a (s +:+ t).
Proof. reflexivity. Qed.

Lemma app_empty_l (s : string) : "" +:+ s = s.
Proof. reflexivity. Qed.

Lemma app_empty_r (s : string) : s +:+ "" = s.
Proof. induction s as [|a s IH]; [done|]. by rewrite app_cons, IH. Qed.

Lemma app_assoc_s (s t u : string) : (s +:+ t) +:+ u = s +:+ t +:+ u.
Proof. induction s as [|a s IH]; [done|]. by rewrite !app_cons, IH. Qed.

Lemma HasPrefix_app (p s : string) : strings.HasPrefix (p +:+ s) p = true.
Proof.
  induction p as [|a p IH]; [by destruct s|].
  rewrite app_cons. simpl. by rewrite Ascii.eqb_refl.
Qed.

Lemma HasPrefix_split (s p : string) :
  strings.HasPrefix s p = true → ∃ t, s = p +:+ t.
Proof.
  revert s. induction p as [|a p IH]; intros s H.
  - by exists s.
  - destruct s as [|b s]; [done|]. simpl in H.
    destruct (Ascii.eqb_spec a b) as [->|]; [|done].
    destruct (IH _ H) as [t ->]. by exists t.
Qed.

Lemma Contains_empty (sub : string) :
  strings.Contains "" sub = strings.HasPrefix "" sub.
Proof. unfold strings.Contains. apply orb_false_r. Qed.

Lemma Contains_cons (c : ascii) (s sub : string) :
  strings.Contains (String c s) sub
  = strings.HasPrefix (String c s) sub || strings.Contains s sub.
Proof. reflexivity. Qed.

Lemma Contains_HasPrefix (s sub : string) :
  strings.HasPrefix s sub = true → strings.Contains s sub = true.
Proof.
  intros H. destruct s; [by rewrite Contains_empty|].
  by rewrite Contains_cons, H.
Qed.

(** [strings.Contains] finds a substring wherever it lies. *)
Lemma Contains_intro (a sub b : string) :
  strings.Contains (a +:+ sub +:+ b) sub = true.
Proof.
  induction a as [|c a IH].
  - rewrite app_empty_l. apply Contains_HasPrefix, HasPrefix_app.
  - rewrite app_cons, Contains_cons, IH. apply orb_true_r.
Qed.

Lemma Contains_split (s sub : string) :
  strings.Contains s sub = true → ∃ a b, s = a +:+ sub +:+ b.
Proof.
  induction s as [|c s IH]; intros H.
  - rewrite Contains_empty in H. apply HasPrefix_split in H as [t ->].
    by exists "", t.
  - rewrite Contains_cons in H. apply orb_true_iff in H as [H|H].
    + apply HasPrefix_split in H as [t ->]. by exists "", t.
    + destruct (IH H) as (a & b & ->). by exists (String c a), b.
Qed.

Lemma Contains_app_l (s t sub : string) :
  strings.Contains s sub = true → strings.Contains (s +:+ t) sub = true.
Proof.
  intros (a & b & ->)%Contains_split. rewrite !app_assoc_s. apply Contains_intro.
Qed.

Lemma Contains_app_r (s t sub : string) :
  strings.Contains t sub = true → strings.Contains (s +:+ t) sub = true.
Proof.
  intros (a & b & ->)%Contains_split. rewrite <- app_assoc_s. apply Contains_intro.
Qed.

Lemma Contains_refl (s : string) : strings.Contains s s = true.
Proof.
  rewrite <- (app_empty_r s) at 1. apply (Contains_intro "" s "").
Qed.

(** A joined list contains each of its elements. *)
Lemma Contains_Join (elems : list string) (sep e sub : string) :
  e ∈ elems → strings.Contains e sub = true →
  strings.Contains (strings.Join elems sep) sub = true.
Proof.
  intros Hin Hsub. induction elems as [|x [|y rest] IH].
  - by apply elem_of_nil in Hin.
  - apply list_elem_of_singleton in Hin as ->. done.
  - apply elem_of_cons in Hin as [->|Hin].
    + change (strings.Join (x :: y :: rest) sep)
        with (x +:+ sep +:+ strings.Join (y :: rest) sep).
      by apply Contains_app_l.
    + change (strings.Join (x :: y :: rest) sep)
        with (x +:+ sep +:+ strings.Join (y :: rest) sep).
      apply Contains_app_r, Contains_app_r. auto.
Qed.

(** ** Import translation *)

(** C1. [convertImport] gives a named import its alias as identifier and
    the mapped package specifier; for an import without alias the
    identifier stays empty and the last element of the path literal is
    written to the package specifier instead: the schema import without
    alias becomes an import under no name of [schema] followed by a double
    quote. *)
Theorem convertImport_unnamed_sets_Pkg :
  (∀ c name path,
     convertImport {| ast.Name := Some (String c name); ast.PathValue := path |}
     = {| Ident := String c name; Pkg := "@grafana/schema" |})
  ∧ (∀ path,
       Ident (convertImport {| ast.Name := None; ast.PathValue := path |}) = "")
  ∧ convertImport {| ast.Name := None;
                     ast.PathValue := dq +:+ schemasPath +:+ dq |}
    = {| Ident := ""; Pkg := "schema" +:+ dq |}.
Proof.
  split; [|split].
  - intros c name path. reflexivity.
  - intros path. unfold convertImport. simpl. by case_match.
  - vm_compute. reflexivity.
Qed.

Section Imports.
Context {ext : Externals}.
Variable rangeImportMap : list string.
Variable path : string.

Lemma importsLoop_app ims rest iseen imports :
  importsLoop rangeImportMap path (ims ++ rest) iseen imports
  = imports' ← importsLoop rangeImportMap path ims iseen imports;
    importsLoop rangeImportMap path rest (seenAfter ims iseen) imports'.
Proof.
  revert iseen imports. induction ims as [|im ims IH]; intros iseen imports.
  - reflexivity.
  - simpl. destruct (importMap !! ast.importPath im) as [mappath|]; [|done].
    destruct (negb (String.eqb mappath "")
              && negb (bool_decide (ast.importPath im ∈ iseen))); apply IH.
Qed.

Lemma seenAfter_elem ims iseen k :
  k ∈ seenAfter ims iseen ↔
  k ∈ iseen ∨ (k ∈ map ast.importPath ims
               ∧ ∃ mappath, importMap !! k = Some mappath ∧ mappath ≠ "").
Proof.
  revert iseen. induction ims as [|im ims IH]; intros iseen; simpl.
  - split; [auto|]. intros [?|[[]%elem_of_nil _]]; done.
  - rewrite IH. clear IH.
    destruct (importMap !! ast.importPath im) as [mappath|] eqn:Hm.
    + destruct (String.eqb_spec mappath "") as [->|Hne]; simpl.
      * split; [intros [?|[? ?]]; [auto|right; split; [by right|done]]|].
        intros [?|[[->|?]%elem_of_cons (m & Hk & ?)]]; [auto| |eauto].
        congruence.
      * case_bool_decide; simpl.
        -- split; [intros [?|[? ?]]; [auto|right; split; [by right|done]]|].
           intros [?|[[->|?]%elem_of_cons ?]]; auto.
        -- rewrite elem_of_union, elem_of_singleton.
           split.
           ++ intros [[->|?]|[? ?]]; [|auto|right; split; [by right|done]].
              right. split; [by left|eauto].
           ++ intros [?|[[->|?]%elem_of_cons ?]]; auto.
    + split; [intros [?|[? ?]]; [auto|right; split; [by right|done]]|].
      intros [?|[[->|?]%elem_of_cons (m & Hk & ?)]]; [auto| |eauto].
      congruence.
Qed.

(** While every import is in [importMap] the loop goes on. *)
Lemma importsLoop_known ims iseen imports :
  Forall (λ im, is_Some (importMap !! ast.importPath im)) ims →
  ∃ imports', importsLoop rangeImportMap path ims iseen imports = Ok imports'.
Proof.
  intros H. revert iseen imports.
  induction H as [|im ims [mappath Hm] _ IH]; intros iseen imports; simpl.
  - eauto.
  - rewrite Hm. destruct (_ && _); apply IH.
Qed.

End Imports.

(** C3. When the loop over the imports of a file reaches an import whose
    path is not a key of [importMap], it fails; the message holds the path
    of the file, the offending import path as [%q] prints it, and every key
    of [importMap], in whatever order [range] yields them. *)
Theorem importsLoop_import_not_allowed `{ext : Externals}
    (rangeImportMap : list string) (path : string)
    (pre post : list ast.ImportSpec) (im : ast.ImportSpec)
    (iseen : gset string) (imports : list tsImport) :
  rangeImportMap ≡ₚ (map_to_list importMap).*1 →
  Forall (λ i, is_Some (importMap !! ast.importPath i)) pre →
  importMap !! ast.importPath im = None →
  ∃ msg,
    importsLoop rangeImportMap path (pre ++ im :: post) iseen imports = Err msg
    ∧ strings.HasPrefix msg path = true
    ∧ strings.Contains msg (Quote (ast.importPath im)) = true
    ∧ ∀ k, is_Some (importMap !! k) → strings.Contains msg k = true.
Proof.
  intros Hperm Hpre Him.
  exists (importNotAllowed rangeImportMap path (ast.importPath im)).
  split; [|split; [|split]].
  - rewrite importsLoop_app.
    destruct (importsLoop_known rangeImportMap path pre iseen imports Hpre)
      as [imports' ->].
    simpl. by rewrite Him.
  - apply HasPrefix_app.
  - unfold importNotAllowed.
    apply Contains_app_r, Contains_app_r, Contains_app_l, Contains_refl.
  - intros k [mappath Hk]. unfold importNotAllowed.
    do 5 apply Contains_app_r. apply Contains_app_l.
    apply Contains_Join with (e := tab +:+ k).
    + apply list_elem_of_fmap. exists k. split; [done|].
      rewrite Hperm. apply list_elem_of_fmap.
      exists (k, mappath). split; [done|]. by apply elem_of_map_to_list.
    + apply Contains_app_r, Contains_refl.
Qed.

Lemma importsLoop_import_not_allowed_witness :
  let unlisted := {| ast.Name := None;
                     ast.PathValue := dq +:+ "some/unlisted/pkg" +:+ dq |} in
  ∃ msg,
    importsLoop (ext := toyExternals emptyFS oneInstance) ((map_to_list importMap).*1)
      "plugin/models.cue" ([themaImport] ++ unlisted :: [schemaImport]) ∅ []
    = Err msg
    ∧ strings.HasPrefix msg "plugin/models.cue" = true
    ∧ strings.Contains msg (@Quote (toyExternals emptyFS oneInstance) (ast.importPath unlisted)) = true
    ∧ ∀ k, is_Some (importMap !! k) → strings.Contains msg k = true.
Proof.
  intros unlisted.
  apply (importsLoop_import_not_allowed (ext := toyExternals emptyFS oneInstance)
           ((map_to_list importMap).*1) "plugin/models.cue"
           [themaImport] [schemaImport] unlisted ∅ []).
  - reflexivity.
  - repeat constructor. vm_compute. eauto.
  - vm_compute. reflexivity.
Defined.

(** C6. An import whose path is in [importMap] adds a Translated Import to
    those of the imports before it exactly when its mapped specifier is not
    empty and no earlier import of the file has the same path; otherwise it
    adds nothing. *)
Theorem importsLoop_snoc `{ext : Externals}
    (rangeImportMap : list string) (path : string)
    (ims : list ast.ImportSpec) (im : ast.ImportSpec)
    (imports : list tsImport) (mappath : string) :
  importsLoop rangeImportMap path ims ∅ [] = Ok imports →
  importMap !! ast.importPath im = Some mappath →
  importsLoop rangeImportMap path (ims ++ [im]) ∅ []
  = Ok (imports ++
        if bool_decide (mappath = "" ∨ ast.importPath im ∈ map ast.importPath ims)
        then [] else [convertImport im]).
Proof.
  intros Hims Him. rewrite importsLoop_app, Hims. simpl. rewrite Him.
  destruct (String.eqb_spec mappath "") as [->|Hne]; simpl.
  - by rewrite app_nil_r.
  - case_bool_decide as Hseen; simpl.
    + apply seenAfter_elem in Hseen as [[]%elem_of_empty|[Hin _]].
      rewrite bool_decide_eq_true_2 by auto. by rewrite app_nil_r.
    + rewrite bool_decide_eq_false_2; [done|].
      intros [?|Hin]; [done|]. apply Hseen, seenAfter_elem. right. eauto.
Qed.

Lemma importsLoop_snoc_witness :
  importsLoop (ext := toyExternals emptyFS oneInstance) [] "plugin/models.cue"
    ([themaImport; uiImport] ++ [schemaImport]) ∅ []
  = Ok ([convertImport uiImport] ++
        if bool_decide ("@grafana/schema" = ""
                        ∨ ast.importPath schemaImport
                          ∈ map ast.importPath [themaImport; uiImport])
        then [] else [convertImport schemaImport]).
Proof.
  apply (importsLoop_snoc (ext := toyExternals emptyFS oneInstance) []
           "plugin/models.cue" [themaImport; uiImport] schemaImport
           [convertImport uiImport] "@grafana/schema").
  - vm_compute. reflexivity.
  - vm_compute. reflexivity.
Defined.

(** ** Instance resolution *)

(** C10. When [load.Instances] returns no instance, the default case of
    the walker and the loader both index the empty slice at 0: each panics
    with an index out of range, and neither returns an error. *)
Theorem no_instance_index_out_of_range `{ext : Externals}
    (clcfg : load.Config) (path : string)
    (modFS : fs.FS) (dir pkgname modname : string)
    (overlay : gmap string string) :
  Instances clcfg = [] →
  findModule modFS = Ok modname →
  themaOverlay modFS modname = Ok overlay →
  Instances (themaConfig overlay modname dir pkgname) = [] →
  generic clcfg path = Panic indexOutOfRange
  ∧ loadInstancesWithThema modFS dir pkgname = Panic indexOutOfRange.
Proof.
  intros Hc Hm Ho Hi. split.
  - unfold generic. by rewrite Hc.
  - unfold loadInstancesWithThema. rewrite Hm. simpl. rewrite Ho. simpl.
    unfold firstInstance. by rewrite Hi.
Qed.

Lemma no_instance_index_out_of_range_witness :
  generic (ext := toyExternals emptyFS noInstance)
    {| load.Overlay := ∅; load.ModuleRoot := "/"; load.Module := "m";
       load.Dir := "out/kinds"; load.Package := "" |} "kinds/dashboard.cue"
  = Panic indexOutOfRange
  ∧ loadInstancesWithThema (ext := toyExternals emptyFS noInstance) pluginTree
      "public/app/plugins/panel/gauge" "grafanaschema"
    = Panic indexOutOfRange.
Proof.
  assert (match themaOverlay (ext := toyExternals emptyFS noInstance) pluginTree
                  "github.com/grafana/grafana" with
          | Ok _ => True | _ => False end) as H by (vm_compute; exact I).
  destruct (themaOverlay (ext := toyExternals emptyFS noInstance) pluginTree
              "github.com/grafana/grafana") as [overlay| |] eqn:Hov; [|done..].
  apply (no_instance_index_out_of_range (ext := toyExternals emptyFS noInstance)
           _ _ pluginTree _ _ "github.com/grafana/grafana" overlay);
    [reflexivity|vm_compute; reflexivity|exact Hov|reflexivity].
Defined.

(** ** The walk *)

(** Induction on a file tree, with the property at hand for every entry
    of a directory. *)
Lemma FS_tree_ind (P : fs.FS → Prop) :
  (∀ data, P (fs.File data)) →
  (∀ es, Forall (λ e, P e.2) es → P (fs.Directory es)) →
  ∀ n, P n.
Proof.
  intros Hfile Hdir.
  fix IH 1. intros [data|es].
  - apply Hfile.
  - apply Hdir. induction es as [|[n1 c] es IHes]; constructor; [apply IH|done].
Qed.

Section WalkList.
Context {S : Type}.
Variable fn : string → fs.DirEntry → option error → S → S * fs.signal.

Lemma walkList_cons name d (l : list (string * fs.DirEntry)) (s : S) :
  walkList fn ((name, d) :: l) s
  = let '(s1, r) := fn name d None s in
    match r with
    | fs.Nil => walkList fn l s1
    | _ => (s1, r)
    end.
Proof. reflexivity. Qed.

Lemma walkList_app (l1 l2 : list (string * fs.DirEntry)) (s : S) :
  walkList fn (l1 ++ l2) s
  = let '(s1, r) := walkList fn l1 s in
    match r with
    | fs.Nil => walkList fn l2 s1
    | _ => (s1, r)
    end.
Proof.
  revert s. induction l1 as [|[name d] l1 IH]; intros s; simpl; [done|].
  destruct (fn name d None s) as [s1 []]; auto.
Qed.

Hypothesis fn_no_skip : ∀ name d s, (fn name d None s).2 ≠ fs.SkipDir.

Lemma walkList_no_skip (l : list (string * fs.DirEntry)) (s : S) :
  (walkList fn l s).2 ≠ fs.SkipDir.
Proof.
  revert s. induction l as [|[name d] l IH]; intros s; simpl; [done|].
  specialize (fn_no_skip name d s).
  destruct (fn name d None s) as [s1 []]; simpl in *; auto.
Qed.

(** A walk function that never asks to skip is run over the entries in
    order, up to its first error. *)
Lemma walkDir_entries (n : fs.FS) (name : string) (d : fs.DirEntry) (s : S) :
  fs.walkDir fn name d n s = walkList fn (entries name d n) s.
Proof.
  revert name d s. induction n as [data|es IH] using FS_tree_ind;
    intros name d s; simpl.
  - destruct (fn name d None s) as [s1 []] eqn:E; try done.
    specialize (fn_no_skip name d s). by rewrite E in fn_no_skip.
  - destruct (fn name d None s) as [s1 r] eqn:E.
    destruct r; try done.
    + clear E s. revert s1.
      induction IH as [|[n1 c] es Hc _ IHes]; intros s; [done|].
      rewrite walkList_app. simpl in Hc. rewrite Hc.
      pose proof (walkList_no_skip
        (entries (filepath.Join [name; n1])
           {| fs.Name := n1; fs.IsDir := fs.isDirectory c |} c) s) as Hns.
      destruct (walkList fn _ s) as [s2 []]; simpl in *; auto. done.
    + specialize (fn_no_skip name d s). by rewrite E in fn_no_skip.
Qed.

Lemma WalkDir_root (fsys : fs.FS) (s : S) :
  fs.WalkDir fn fsys "." s = walkList fn (rootEntries fsys) s.
Proof.
  unfold fs.WalkDir, rootEntries. simpl. rewrite walkDir_entries.
  pose proof (walkList_no_skip
    (entries "." {| fs.Name := "."; fs.IsDir := fs.isDirectory fsys |} fsys) s).
  change (filepath.Base ".") with ".".
  destruct (walkList fn _ s) as [s1 []]; simpl in *; done.
Qed.

End WalkList.

Section Walker.
Context {ext : Externals}.
Variable rangeImportMap : list string.
Variables (root : string) (overlay : gmap string string) (inFS : fs.FS).

(** The test of line 92: a file that does not qualify, or whose directory
    was seen, is passed over. *)
Lemma cuetsifyFn_skips path d st :
  qualifies path d && negb (bool_decide (filepath.Dir path ∈ seen st)) = false →
  cuetsifyFn rangeImportMap root overlay inFS path d None st = (st, fs.Nil).
Proof.
  unfold qualifies, cuetsifyFn. intros H.
  destruct (fs.IsDir d), (String.eqb (filepath.Ext (fs.Name d)) ".cue"),
    (bool_decide (filepath.Dir path ∈ seen st)), (exclude path);
    simpl in *; done.
Qed.

(** Every other file is routed: its directory is marked and it is handed to
    its strategy. *)
Lemma cuetsifyFn_routes path d st :
  qualifies path d && negb (bool_decide (filepath.Dir path ∈ seen st)) = true →
  ∃ st' r,
    cuetsifyFn rangeImportMap root overlay inFS path d None st = (st', r)
    ∧ r ≠ fs.SkipDir
    ∧ seen st' = {[filepath.Dir path]} ∪ seen st
    ∧ routed st' = routed st ++ [(path, strategyOf path)].
Proof.
  unfold qualifies, cuetsifyFn. intros H.
  destruct (fs.IsDir d), (String.eqb (filepath.Ext (fs.Name d)) ".cue"),
    (bool_decide (filepath.Dir path ∈ seen st)), (exclude path);
    simpl in H; try discriminate H; simpl.
  destruct (match strategyOf path with
            | Generic => generic _ path
            | Plugin => plugin rangeImportMap inFS path (filepath.Dir path)
            end) as [f|e|p]; eauto 10.
Qed.

Lemma cuetsifyFn_no_skip path d st :
  (cuetsifyFn rangeImportMap root overlay inFS path d None st).2 ≠ fs.SkipDir.
Proof.
  destruct (qualifies path d
            && negb (bool_decide (filepath.Dir path ∈ seen st))) eqn:E.
  - destruct (cuetsifyFn_routes path d st E) as (st' & r & -> & ? & _). done.
  - by rewrite cuetsifyFn_skips.
Qed.

Lemma sameDirEarlier_snoc pre e path :
  sameDirEarlier (pre ++ [e]) path
  = sameDirEarlier pre path
    || (qualifies e.1 e.2 && String.eqb (filepath.Dir e.1) (filepath.Dir path)).
Proof.
  unfold sameDirEarlier. rewrite existsb_app. simpl. by rewrite orb_false_r.
Qed.

Lemma seenCovers_step pre e st (seen' : gset string) out routed' :
  seenCovers pre st →
  seen' = (if qualifies e.1 e.2 then {[filepath.Dir e.1]} ∪ seen st else seen st) →
  seenCovers (pre ++ [e]) {| seen := seen'; outfiles := out; routed := routed' |}.
Proof.
  intros Hcov -> path. rewrite sameDirEarlier_snoc, <- Hcov. simpl.
  destruct (qualifies e.1 e.2); simpl; [|by rewrite orb_false_r].
  destruct (String.eqb_spec (filepath.Dir e.1) (filepath.Dir path)) as [Heq|Hne].
  - rewrite orb_true_r. apply bool_decide_eq_true_2. set_solver.
  - rewrite orb_false_r. apply bool_decide_ext. set_solver.
Qed.

(** The files routed while the walk goes over [l] are the representatives
    of [l], all of them unless the walk stops at an error. *)
Lemma cuetsify_walkList l pre st st' r :
  seenCovers pre st →
  walkList (cuetsifyFn rangeImportMap root overlay inFS) l st = (st', r) →
  ∃ new,
    (routed st').*1 = (routed st).*1 ++ new
    ∧ new `prefix_of` representativesFrom pre l
    ∧ (r = fs.Nil → new = representativesFrom pre l).
Proof.
  revert pre st. induction l as [|[path d] l IH]; intros pre st Hcov Hwalk.
  - simpl in Hwalk. injection Hwalk as <- <-. exists [].
    by rewrite app_nil_r.
  - rewrite walkList_cons in Hwalk. simpl representativesFrom. rewrite <- Hcov.
    destruct (qualifies path d
              && negb (bool_decide (filepath.Dir path ∈ seen st))) eqn:E.
    + destruct (cuetsifyFn_routes path d st E) as (st1 & r1 & Hfn & Hns & Hseen & Hrouted).
      rewrite Hfn in Hwalk.
      assert (seenCovers (pre ++ [(path, d)]) st1) as Hcov1.
      { apply andb_true_iff in E as [Hq _].
        destruct st1 as [seen1 out1 routed1]. simpl in *.
        eapply seenCovers_step; [done|]. simpl. by rewrite Hq. }
      destruct r1; try done.
      * destruct (IH _ _ Hcov1 Hwalk) as (new & Hnew & Hpre & Hall).
        exists (path :: new). rewrite Hnew, Hrouted, fmap_app, <- app_assoc.
        split; [done|]. split; [by apply prefix_cons|].
        intros Hr. simpl. f_equal. auto.
      * injection Hwalk as <- <-. exists [path].
        rewrite Hrouted, fmap_app. split; [done|].
        split; [|done]. apply prefix_cons, prefix_nil.
      * injection Hwalk as <- <-. exists [path].
        rewrite Hrouted, fmap_app. split; [done|].
        split; [|done]. apply prefix_cons, prefix_nil.
    + rewrite cuetsifyFn_skips in Hwalk by done.
      apply (IH (pre ++ [(path, d)])) in Hwalk; [done|].
      destruct st as [seen0 out0 routed0]. eapply seenCovers_step; [done|].
      simpl in *. destruct (qualifies path d) eqn:Hq; [|done].
      simpl in E. apply negb_false_iff, bool_decide_eq_true in E. set_solver.
Qed.

End Walker.

Lemma representativesFrom_qualify pre l path :
  path ∈ representativesFrom pre l →
  ∃ d, (path, d) ∈ l ∧ qualifies path d = true.
Proof.
  revert pre. induction l as [|[p d] l IH]; intros pre; simpl.
  - by intros ?%elem_of_nil.
  - intros [Hin|Hin]%elem_of_app.
    + destruct (qualifies p d) eqn:Hq; simpl in Hin;
        [|by apply elem_of_nil in Hin].
      destruct (negb _); [|by apply elem_of_nil in Hin].
      apply list_elem_of_singleton in Hin as ->. exists d. split; [left|done].
    + destruct (IH _ Hin) as (d' & ? & ?). exists d'. split; [by right|done].
Qed.

(** The files the walker routes, in the order it reaches them. *)
Lemma cuetsify_routed `{ext : Externals} (rangeImportMap : list string)
    (root : string) (overlay : gmap string string) (inFS : fs.FS)
    (outfiles0 : gmap string string) :
  let run := cuetsify rangeImportMap root overlay inFS outfiles0 in
  (routed run.1).*1 `prefix_of` representatives (rootEntries inFS)
  ∧ (run.2 = fs.Nil → (routed run.1).*1 = representatives (rootEntries inFS)).
Proof.
  unfold cuetsify. rewrite WalkDir_root by apply cuetsifyFn_no_skip.
  destruct (walkList _ _ _) as [st r] eqn:Hwalk.
  apply (cuetsify_walkList _ _ _ _ _ []) in Hwalk as (new & Hnew & ? & ?);
    [|done].
  simpl in *. by rewrite Hnew.
Qed.

(** C4, as the code has it. A file whose directory is [cue.mod] itself,
    and a file of [skipPaths], is never routed to a strategy, whatever the
    tree and however the run ends. *)
Theorem cuetsify_excludes_cue_mod `{ext : Externals}
    (rangeImportMap : list string) (root : string)
    (overlay : gmap string string) (inFS : fs.FS)
    (outfiles0 : gmap string string) (path : string) (s : strategy) :
  filepath.Dir path = "cue.mod" ∨ path ∈ skipPaths →
  (path, s) ∉ routed (cuetsify rangeImportMap root overlay inFS outfiles0).1.
Proof.
  intros Hex Hin.
  destruct (cuetsify_routed rangeImportMap root overlay inFS outfiles0)
    as [[rest Hpre] _].
  assert (path ∈ representatives (rootEntries inFS)) as Hrep.
  { rewrite Hpre. apply elem_of_app. left.
    apply list_elem_of_fmap. by exists (path, s). }
  apply representativesFrom_qualify in Hrep as (d & _ & Hq).
  unfold qualifies, exclude in Hq.
  rewrite !negb_true_iff, !orb_false_iff in Hq. destruct Hq as (_ & Hskip & Hdir).
  destruct Hex as [Hd|Hs].
  - rewrite Hd in Hdir. done.
  - assert (existsb (String.eqb path) skipPaths = true) as HT; [|congruence].
    apply existsb_exists. exists path.
    split; [by apply list_elem_of_In|apply String.eqb_refl].
Qed.

Lemma cuetsify_excludes_cue_mod_witness :
  ("cue.mod/module.cue", Generic)
  ∉ routed (cuetsify (ext := toyExternals vendoredTree oneInstance) []
              "out" ∅ vendoredTree ∅).1.
Proof.
  apply (cuetsify_excludes_cue_mod (ext := toyExternals vendoredTree oneInstance)).
  left. vm_compute. reflexivity.
Defined.

(** C4, as it is stated, fails: a schema file in a subdirectory of
    [cue.mod] is routed to the default strategy, and an output is written
    for it. *)
Lemma cue_mod_subdirectory_routed :
  let run := cuetsify (ext := toyExternals vendoredTree oneInstance) []
               "out" ∅ vendoredTree ∅ in
  strings.HasPrefix "cue.mod/pkg/schema.cue" "cue.mod/" = true
  ∧ routed run.1 = [("cue.mod/pkg/schema.cue", Generic);
                    ("kinds/dashboard.cue", Generic)]
  ∧ is_Some (outfiles run.1 !! "out/cue.mod/pkg/schema.gen.ts").
Proof.
  vm_compute. split; [done|]. split; [done|]. eauto.
Qed.

(** ** Two runs on the same input

    The externals are functions of their arguments; between two runs only
    the order of [range importMap] can differ, and it reaches nothing but
    the text of an error. *)
Section TwoRuns.
Context {ext : Externals}.
Variables range1 range2 : list string.

Lemma importsLoop_range path ims iseen imports res :
  importsLoop range1 path ims iseen imports = Ok res →
  importsLoop range2 path ims iseen imports = Ok res.
Proof.
  revert iseen imports. induction ims as [|im ims IH]; intros iseen imports;
    simpl; [done|].
  destruct (importMap !! ast.importPath im); [|done].
  destruct (_ && _); apply IH.
Qed.

Lemma plugin_range inFS path dir f :
  plugin range1 inFS path dir = Ok f → plugin range2 inFS path dir = Ok f.
Proof.
  unfold plugin.
  destruct (loadInstancesWithThema inFS dir "grafanaschema"); try done.
  destruct (ParseFile _ _) as [[pf|] perr]; [|done].
  destruct (importsLoop range1 path (ast.Imports pf) ∅ []) as [imports| |] eqn:E;
    try done.
  by rewrite (importsLoop_range _ _ _ _ _ E).
Qed.

Lemma cuetsifyFn_range root overlay inFS path d st st' :
  cuetsifyFn range1 root overlay inFS path d None st = (st', fs.Nil) →
  cuetsifyFn range2 root overlay inFS path d None st = (st', fs.Nil).
Proof.
  unfold cuetsifyFn. destruct (_ || _); [done|].
  destruct (strategyOf path); [done|].
  destruct (plugin range1 inFS path (filepath.Dir path)) as [f| |] eqn:E;
    try done.
  by rewrite (plugin_range _ _ _ _ E).
Qed.

Lemma walkList_range root overlay inFS l st st' :
  walkList (cuetsifyFn range1 root overlay inFS) l st = (st', fs.Nil) →
  walkList (cuetsifyFn range2 root overlay inFS) l st = (st', fs.Nil).
Proof.
  revert st. induction l as [|[path d] l IH]; intros st; [done|].
  rewrite !walkList_cons.
  destruct (cuetsifyFn range1 root overlay inFS path d None st) as [s1 r] eqn:E.
  destruct r; try done.
  rewrite (cuetsifyFn_range _ _ _ _ _ _ _ E). apply IH.
Qed.

Lemma CuetsifyPlugins_range root out :
  CuetsifyPlugins range1 root = Ok out → CuetsifyPlugins range2 root = Ok out.
Proof.
  unfold CuetsifyPlugins.
  destruct (toOverlay prefix CueSchemaFS ∅) as [overlay| |]; simpl; try done.
  unfold cuetsify. rewrite !WalkDir_root by apply cuetsifyFn_no_skip.
  destruct (walkList (cuetsifyFn range1 _ _ _) _ _) as [st r] eqn:E.
  pose proof (walkList_no_skip _ (cuetsifyFn_no_skip range1 root overlay CueSchemaFS)
                (rootEntries CueSchemaFS)
                {| seen := ∅; outfiles := ∅; routed := [] |}) as Hns.
  rewrite E in Hns. destruct r; try done.
  by rewrite (walkList_range _ _ _ _ _ _ E).
Qed.

End TwoRuns.

Lemma sameDirEarlier_app pre l path :
  sameDirEarlier (pre ++ l) path = sameDirEarlier pre path || sameDirEarlier l path.
Proof. unfold sameDirEarlier. apply existsb_app. Qed.

(** A representative is a qualifying entry with no qualifying entry of its
    directory before it. *)
Lemma representativesFrom_first pre l path :
  path ∈ representativesFrom pre l →
  ∃ l1 d l2, l = l1 ++ (path, d) :: l2
             ∧ qualifies path d = true
             ∧ sameDirEarlier (pre ++ l1) path = false.
Proof.
  revert pre. induction l as [|[p d] l IH]; intros pre; simpl.
  - by intros ?%elem_of_nil.
  - intros [Hin|Hin]%elem_of_app.
    + destruct (qualifies p d) eqn:Hq; simpl in Hin;
        [|by apply elem_of_nil in Hin].
      destruct (sameDirEarlier pre p) eqn:Hs; simpl in Hin;
        [by apply elem_of_nil in Hin|].
      apply list_elem_of_singleton in Hin as ->.
      exists [], d, l. by rewrite app_nil_r.
    + destruct (IH _ Hin) as (l1 & d' & l2 & -> & ? & Hs).
      exists ((p, d) :: l1), d', l2. rewrite <- app_assoc in Hs. done.
Qed.

(** No two representatives share a directory. *)
Lemma representativesFrom_NoDup pre l :
  NoDup (filepath.Dir <$> representativesFrom pre l).
Proof.
  revert pre. induction l as [|[p d] l IH]; intros pre; simpl; [constructor|].
  rewrite fmap_app. destruct (qualifies p d && negb (sameDirEarlier pre p)) eqn:E;
    simpl; [|apply IH].
  constructor; [|apply IH].
  intros (q & Hdir & Hq)%list_elem_of_fmap.
  apply representativesFrom_first in Hq as (l1 & d' & l2 & _ & _ & Hs).
  rewrite !sameDirEarlier_app in Hs. apply orb_false_iff in Hs as [Hs _].
  apply orb_false_iff in Hs as [_ Hs]. unfold sameDirEarlier in Hs.
  simpl in Hs. apply andb_true_iff in E as [Hq _].
  rewrite Hq, Hdir, String.eqb_refl in Hs. done.
Qed.

(** C8. Whatever the tree and however the run ends: each file the walker
    routes is a qualifying file with no qualifying file of the same
    directory before it in walk order; no two routed files share a
    directory, so every later qualifying file of the directory is passed
    over; and when the walk ends without error every directory with a
    qualifying file had its first one routed. A run that succeeds gives the
    same output when run again, whatever the order of [range importMap]. *)
Theorem cuetsify_one_file_per_directory `{ext : Externals}
    (range1 range2 : list string) (root : string)
    (overlay : gmap string string) (outfiles0 : gmap string string) :
  let run := cuetsify range1 root overlay CueSchemaFS outfiles0 in
  (∀ path, path ∈ (routed run.1).*1 →
     ∃ pre d post, rootEntries CueSchemaFS = pre ++ (path, d) :: post
                   ∧ qualifies path d = true
                   ∧ sameDirEarlier pre path = false)
  ∧ NoDup (filepath.Dir <$> (routed run.1).*1)
  ∧ (run.2 = fs.Nil →
     (routed run.1).*1 = representatives (rootEntries CueSchemaFS))
  ∧ (∀ out, CuetsifyPlugins range1 root = Ok out →
            CuetsifyPlugins range2 root = Ok out).
Proof.
  intros run.
  destruct (cuetsify_routed range1 root overlay CueSchemaFS outfiles0)
    as [[rest Hpre] Hall].
  fold run in Hpre, Hall. split; [|split; [|split]].
  - intros path Hin.
    apply (representativesFrom_first [] (rootEntries CueSchemaFS)).
    fold (representatives (rootEntries CueSchemaFS)). rewrite Hpre.
    apply elem_of_app. by left.
  - pose proof (representativesFrom_NoDup [] (rootEntries CueSchemaFS)) as Hnd.
    fold (representatives (rootEntries CueSchemaFS)) in Hnd.
    rewrite Hpre, fmap_app in Hnd. by apply NoDup_app in Hnd as [? _].
  - done.
  - apply CuetsifyPlugins_range.
Qed.

Lemma cuetsify_one_file_per_directory_witness :
  let ext := toyExternals vendoredTree oneInstance in
  let run := cuetsify (ext := ext) [] "out" ∅ vendoredTree ∅ in
  (routed run.1).*1 = ["cue.mod/pkg/schema.cue"; "kinds/dashboard.cue"]
  ∧ NoDup (filepath.Dir <$> (routed run.1).*1)
  ∧ (routed run.1).*1 = representatives (rootEntries vendoredTree)
  ∧ ∃ out, CuetsifyPlugins (ext := ext) [] "out" = Ok out
           ∧ CuetsifyPlugins (ext := ext) [schemasPath] "out" = Ok out.
Proof.
  intros ext run.
  destruct (cuetsify_one_file_per_directory (ext := ext) [] [schemasPath]
              "out" ∅ ∅) as (_ & Hnd & Hall & Hsame).
  split; [vm_compute; reflexivity|]. split; [exact Hnd|].
  split; [apply Hall; vm_compute; reflexivity|].
  assert (match CuetsifyPlugins (ext := ext) [] "out" with
          | Ok _ => True | _ => False end) as H by (vm_compute; exact I).
  destruct (CuetsifyPlugins (ext := ext) [] "out") as [out| |] eqn:E; [|done..].
  exists out. split; [done|]. by apply Hsame.
Defined.

(** ** Errors of the second parse *)

(** C5. The errors of [in.Open] and [parser.ParseFile] at lines 126-127 are
    dropped. For a plugin whose models.cue makes the parser return a
    partial file together with a syntax error, the parser does report the
    error, and the run succeeds all the same and writes the output of the
    plugin. *)
Theorem parse_error_swallowed :
  let ext := toyExternals brokenTree oneInstance in
  snd (ParseFile (Externals := ext) "models.cue" (Some brokenModels))
  = Some "models.cue: syntax error"
  ∧ ∃ out, CuetsifyPlugins (ext := ext) [] "out" = Ok out
           ∧ is_Some (out !! "out/public/app/plugins/panel/gauge/models.gen.ts").
Proof.
  intros ext. split; [vm_compute; reflexivity|].
  assert (match CuetsifyPlugins (ext := ext) [] "out" with
          | Ok out => is_Some (out !! "out/public/app/plugins/panel/gauge/models.gen.ts")
          | _ => False
          end) as H by (vm_compute; eauto).
  destruct (CuetsifyPlugins (ext := ext) [] "out") as [out| |]; [|done..].
  by exists out.
Qed.

(** ** Output paths *)

(** C7. The output path replaces every [.cue] in the path of the schema
    file, not its extension alone: for [schemas.cue.d/types.cue] the one
    entry written is [out/schemas.gen.ts.d/types.gen.ts], and nothing is
    written at [out/schemas.cue.d/types.gen.ts]. *)
Theorem output_path_replaces_every_cue :
  let ext := toyExternals dottedTree oneInstance in
  ∃ out, CuetsifyPlugins (ext := ext) [] "out" = Ok out
         ∧ (map_to_list out).*1 = ["out/schemas.gen.ts.d/types.gen.ts"]
         ∧ out !! "out/schemas.cue.d/types.gen.ts" = None.
Proof.
  intros ext.
  assert (match CuetsifyPlugins (ext := ext) [] "out" with
          | Ok out => (map_to_list out).*1 = ["out/schemas.gen.ts.d/types.gen.ts"]
                      ∧ out !! "out/schemas.cue.d/types.gen.ts" = None
          | _ => False
          end) as H by (vm_compute; done).
  destruct (CuetsifyPlugins (ext := ext) [] "out") as [out| |]; [|done..].
  by exists out.
Qed.

(** ** The overlay *)

Section Overlay.
Context {ext : Externals}.

Lemma toOverlayFn_no_skip prefix vfs path d (overlay : gmap string string) :
  (toOverlayFn prefix vfs path d None overlay).2 ≠ fs.SkipDir.
Proof.
  unfold toOverlayFn. destruct (fs.IsDir d); [done|].
  by destruct (fs.ReadFile vfs path).
Qed.

(** [toOverlay] is the walk function run over the entries of the tree. *)
Lemma toOverlay_walkList prefix vfs (ov0 ov : gmap string string) :
  toOverlay prefix vfs ov0 = Ok ov →
  walkList (toOverlayFn prefix vfs) (rootEntries vfs) ov0 = (ov, fs.Nil).
Proof.
  unfold toOverlay. destruct (negb (filepath.IsAbs prefix)); [done|].
  rewrite WalkDir_root by apply toOverlayFn_no_skip.
  pose proof (walkList_no_skip _ (toOverlayFn_no_skip prefix vfs)
                (rootEntries vfs) ov0) as Hns.
  destruct (walkList _ _ _) as [ov' []]; simpl in *; congruence.
Qed.

(** A walk that ends without error keeps what the overlay held and
    holds every regular file it went over, at [prefix] joined with the path
    of the file. *)
Lemma toOverlay_walk_keys prefix vfs l (ov0 ov : gmap string string) :
  walkList (toOverlayFn prefix vfs) l ov0 = (ov, fs.Nil) →
  (∀ k, is_Some (ov0 !! k) → is_Some (ov !! k))
  ∧ (∀ p d, (p, d) ∈ l → fs.IsDir d = false →
            is_Some (ov !! filepath.Join [prefix; p])).
Proof.
  revert ov0. induction l as [|[p d] l IH]; intros ov0 Hwalk.
  - injection Hwalk as <-. split; [done|]. by intros ? ? ?%elem_of_nil.
  - rewrite walkList_cons in Hwalk. unfold toOverlayFn in Hwalk.
    destruct (fs.IsDir d) eqn:Hd.
    + destruct (IH _ Hwalk) as [Hkeep Hfiles]. split; [done|].
      intros p' d' [[= -> ->]|Hin]%elem_of_cons Hd'; [congruence|eauto].
    + destruct (fs.ReadFile vfs p) as [e|b]; [done|].
      destruct (IH _ Hwalk) as [Hkeep Hfiles]. split.
      * intros k Hk. apply Hkeep. rewrite lookup_insert. case_decide; eauto.
      * intros p' d' [[= -> ->]|Hin]%elem_of_cons Hd'; [|eauto].
        apply Hkeep. rewrite lookup_insert_eq. eauto.
Qed.

Lemma toOverlay_keys prefix vfs (ov0 ov : gmap string string) :
  toOverlay prefix vfs ov0 = Ok ov →
  (∀ k, is_Some (ov0 !! k) → is_Some (ov !! k))
  ∧ (∀ p d, (p, d) ∈ rootEntries vfs → fs.IsDir d = false →
            is_Some (ov !! filepath.Join [prefix; p])).
Proof. intros H%toOverlay_walkList. by eapply toOverlay_walk_keys. Qed.

End Overlay.

(** ** Paths *)

Lemma Split_nonempty (s : string) (sep : ascii) : strings.Split s sep ≠ [].
Proof.
  destruct s as [|c s]; simpl; [done|].
  destruct (Ascii.eqb c sep); [done|]. by destruct (strings.Split s sep).
Qed.

Lemma Split_noSlash (e : string) :
  noSlash e = true → strings.Split e "/"%char = [e].
Proof.
  induction e as [|c e IH]; simpl; [done|].
  intros [Hc He]%andb_true_iff. apply negb_true_iff in Hc. rewrite Hc.
  by rewrite (IH He).
Qed.

Lemma Split_app_slash (a b : string) :
  strings.Split (a +:+ String "/"%char b) "/"%char
  = strings.Split a "/"%char ++ strings.Split b "/"%char.
Proof.
  induction a as [|c a IH].
  - reflexivity.
  - rewrite app_cons. simpl. rewrite IH.
    destruct (Ascii.eqb c "/"%char); [done|].
    pose proof (Split_nonempty a "/"%char).
    by destruct (strings.Split a "/"%char).
Qed.

Lemma Join_cons (e : string) (rest : list string) (sep : string) :
  rest ≠ [] →
  strings.Join (e :: rest) sep = e +:+ sep +:+ strings.Join rest sep.
Proof. by destruct rest. Qed.

Lemma Join_snoc (es : list string) (e sep : string) :
  es ≠ [] →
  strings.Join (es ++ [e]) sep = strings.Join es sep +:+ sep +:+ e.
Proof.
  induction es as [|x es IH]; [done|]. intros _.
  destruct es as [|y es]; [done|].
  change ((x :: y :: es) ++ [e]) with (x :: ((y :: es) ++ [e])).
  rewrite !Join_cons by done. rewrite IH by done.
  by rewrite !app_assoc_s.
Qed.

Lemma Split_Join (es : list string) :
  es ≠ [] → Forall (λ e, noSlash e = true) es →
  strings.Split (strings.Join es "/") "/"%char = es.
Proof.
  induction es as [|e es IH]; [done|]. intros _ Hes.
  apply Forall_cons in Hes as [He Hes].
  destruct es as [|e2 es]; [by apply Split_noSlash|].
  rewrite Join_cons by done.
  change ("/" +:+ strings.Join (e2 :: es) "/")
    with (String "/"%char (strings.Join (e2 :: es) "/")).
  rewrite Split_app_slash, Split_noSlash by done. rewrite IH by done. done.
Qed.

Lemma validName_noSlash (e : string) : validName e = true → noSlash e = true.
Proof. unfold validName. rewrite !andb_true_iff. tauto. Qed.

Lemma validName_head (e : string) :
  validName e = true → ∃ c e', e = String c e' ∧ Ascii.eqb c "/"%char = false.
Proof.
  unfold validName. rewrite !andb_true_iff. intros [[[Hs Hne] _] _].
  destruct e as [|c e']; [done|]. simpl in Hs.
  apply andb_true_iff in Hs as [Hc _]. apply negb_true_iff in Hc. eauto.
Qed.

Lemma cleanStep_valid (rooted : bool) (out : list string) (e : string) :
  validName e = true → filepath.cleanStep rooted out e = e :: out.
Proof.
  unfold validName, filepath.cleanStep. rewrite !andb_true_iff, !negb_true_iff.
  intros [[[_ ->] ->] ->]. done.
Qed.

Lemma cleanStep_empty (rooted : bool) (out : list string) :
  filepath.cleanStep rooted out "" = out.
Proof. reflexivity. Qed.

Lemma cleanSteps_valid (rooted : bool) (es out : list string) :
  Forall (λ e, validName e = true) es →
  fold_left (filepath.cleanStep rooted) es out = rev es ++ out.
Proof.
  intros Hes. revert out. induction Hes as [|e es He _ IH]; intros out; [done|].
  simpl. rewrite cleanStep_valid by done. rewrite IH, <- app_assoc. done.
Qed.

Lemma cleanElems_valid (rooted : bool) (es : list string) :
  Forall (λ e, validName e = true) es → filepath.cleanElems rooted es = es.
Proof.
  intros Hes. unfold filepath.cleanElems. rewrite cleanSteps_valid by done.
  by rewrite app_nil_r, rev_involutive.
Qed.

(** A path of valid elements starts with a byte that is no slash. *)
Lemma Join_valid_head (es : list string) :
  es ≠ [] → Forall (λ e, validName e = true) es →
  ∃ c s, strings.Join es "/" = String c s ∧ Ascii.eqb c "/"%char = false.
Proof.
  destruct es as [|e es]; [done|]. intros _ [He _]%Forall_cons.
  apply validName_head in He as (c & e' & -> & Hc).
  destruct es; [by exists c, e'|]. rewrite Join_cons by done. eauto.
Qed.

Lemma Forall_valid_noSlash (es : list string) :
  Forall (λ e, validName e = true) es → Forall (λ e, noSlash e = true) es.
Proof.
  intros H. eapply Forall_impl; [exact H|]. intros e. apply validName_noSlash.
Qed.

Lemma HasPrefix_slash (c : ascii) (s : string) :
  strings.HasPrefix (String c s) "/" = Ascii.eqb c "/"%char.
Proof.
  change (strings.HasPrefix (String c s) "/")
    with (if Ascii.eqb "/"%char c then strings.HasPrefix s "" else false).
  rewrite (Ascii.eqb_sym c). destruct (Ascii.eqb "/"%char c); [|done].
  by destruct s.
Qed.

(** [Clean] leaves a relative path of valid elements as it is. *)
Lemma Clean_valid (es : list string) :
  es ≠ [] → Forall (λ e, validName e = true) es →
  filepath.Clean (strings.Join es "/") = strings.Join es "/".
Proof.
  intros Hne Hes. unfold filepath.Clean.
  rewrite Split_Join by auto using Forall_valid_noSlash.
  rewrite cleanElems_valid by done.
  destruct (Join_valid_head es Hne Hes) as (c & s & -> & Hc).
  rewrite HasPrefix_slash, Hc. done.
Qed.

(** ... and removes a slash at its end. *)
Lemma Clean_valid_slash (es : list string) :
  es ≠ [] → Forall (λ e, validName e = true) es →
  filepath.Clean (strings.Join es "/" +:+ "/") = strings.Join es "/".
Proof.
  intros Hne Hes. unfold filepath.Clean.
  change (strings.Join es "/" +:+ "/")
    with (strings.Join es "/" +:+ String "/"%char "").
  rewrite Split_app_slash, Split_Join by auto using Forall_valid_noSlash.
  change (strings.Split "" "/"%char) with [""]. unfold filepath.cleanElems.
  rewrite fold_left_app, (cleanSteps_valid _ es) by done. cbn [fold_left].
  rewrite cleanStep_empty, app_nil_r, rev_involutive.
  destruct (Join_valid_head es Hne Hes) as (c & s & -> & Hc).
  rewrite app_cons, HasPrefix_slash, Hc. done.
Qed.

(** The path [walkDir] gives to an entry of a directory. *)
Lemma Join_pathOf (es : list string) (e : string) :
  Forall (λ e, validName e = true) es → validName e = true →
  filepath.Join [pathOf es; e] = pathOf (es ++ [e]).
Proof.
  intros Hes He. destruct es as [|x es].
  - simpl pathOf. unfold filepath.Join. simpl String.eqb. cbv iota.
    change (strings.Join ["."; e] "/") with ("." +:+ String "/"%char e).
    unfold filepath.Clean.
    rewrite Split_app_slash, (Split_noSlash e) by by apply validName_noSlash.
    change (strings.Split "." "/"%char) with ["."].
    unfold filepath.cleanElems. cbn [app fold_left].
    change (filepath.cleanStep _ [] ".") with (@nil string).
    rewrite cleanStep_valid by done. cbn [rev app strings.Join].
    change (strings.HasPrefix ("." +:+ String "/"%char e) "/") with false.
    apply validName_head in He as (c & e' & -> & _). done.
  - assert (pathOf (x :: es) = strings.Join (x :: es) "/") as -> by done.
    assert (pathOf ((x :: es) ++ [e]) = strings.Join ((x :: es) ++ [e]) "/")
      as -> by done.
    destruct (Join_valid_head (x :: es)) as (c & s & Hj & Hc); [done..|].
    unfold filepath.Join. rewrite Hj. simpl String.eqb. rewrite <- Hj.
    change (strings.Join [strings.Join (x :: es) "/"; e] "/")
      with (strings.Join (x :: es) "/" +:+ "/" +:+ e).
    rewrite <- Join_snoc by done.
    apply Clean_valid; [done|]. apply Forall_app. auto.
Qed.

(** [filepath.Dir] of the path of a file is the path of its directory. *)
Lemma Dir_pathOf (es : list string) (e : string) :
  Forall (λ e, validName e = true) es → validName e = true →
  filepath.Dir (pathOf (es ++ [e])) = pathOf es.
Proof.
  intros Hes He. unfold filepath.Dir, filepath.splitLast.
  assert (pathOf (es ++ [e]) = strings.Join (es ++ [e]) "/") as ->.
  { by destruct es. }
  rewrite Split_Join.
  - rewrite rev_app_distr. simpl. destruct es as [|x es]; [done|].
    destruct (rev (x :: es)) as [|y l] eqn:E.
    { apply (f_equal (@length _)) in E. rewrite length_rev in E. done. }
    cbn [fst]. rewrite <- E, rev_involutive.
    change (pathOf (x :: es)) with (strings.Join (x :: es) "/").
    by apply Clean_valid_slash.
  - by destruct es.
  - apply Forall_valid_noSlash, Forall_app. auto.
Qed.

Local Arguments filepath.Join : simpl never.
Local Arguments pathOf : simpl never.
Local Arguments validName : simpl never.

(** In a well-formed tree every entry below the root has the path of its
    elements, and the name of its last element. *)
Lemma entries_valid (n : fs.FS) :
  ∀ es d, Forall (λ e, validName e = true) es → validNames n = true →
  ∀ p d', (p, d') ∈ entries (pathOf es) d n →
  (p, d') = (pathOf es, d)
  ∨ ∃ es' nm, Forall (λ e, validName e = true) (es' ++ [nm])
              ∧ p = pathOf (es ++ es' ++ [nm]) ∧ fs.Name d' = nm.
Proof.
  induction n as [data|children IH] using FS_tree_ind; intros es d Hes Hn p d'.
  - simpl. intros ->%list_elem_of_singleton. by left.
  - simpl. intros [->|Hin]%elem_of_cons; [by left|]. right.
    simpl in Hn. revert Hn Hin.
    induction IH as [|[n1 c] children Hc _ IHch]; intros Hn Hin.
    + by apply elem_of_nil in Hin.
    + rewrite !andb_true_iff in Hn. destruct Hn as [[[Hn1 _] Hvc] Hrest].
      apply elem_of_app in Hin as [Hin|Hin]; [|by apply IHch].
      rewrite Join_pathOf in Hin by done.
      simpl in Hc. apply (Hc (es ++ [n1])) in Hin as [[= -> ->]|Hin];
        [| |by apply Forall_app; auto|done].
      * exists [], n1. split; [by constructor|]. done.
      * destruct Hin as (es' & nm & Hv & -> & Hnm).
        exists (n1 :: es'), nm. split; [by constructor|].
        by rewrite <- !app_assoc.
Qed.

Lemma extOf_suffix (e : string) : ∃ a, e = a +:+ filepath.extOf e.
Proof.
  induction e as [|c e [a IH]]; [by exists ""|]. simpl.
  destruct (filepath.extOf e) as [|c' e'] eqn:E.
  - destruct (Ascii.eqb c "."%char).
    + by exists "".
    + exists (String c e). by rewrite app_empty_r.
  - exists (String c a). by rewrite app_cons, <- IH.
Qed.

Lemma Ext_noSlash (e : string) :
  noSlash e = true → filepath.Ext e = filepath.extOf e.
Proof.
  intros He. unfold filepath.Ext, filepath.splitLast.
  by rewrite Split_noSlash.
Qed.

(** A qualifying entry of a well-formed tree is a file below the root: its
    path is the path of its directory, then its name. *)
Lemma qualifying_entry (fsys : fs.FS) (path : string) (d : fs.DirEntry) :
  validNames fsys = true → (path, d) ∈ rootEntries fsys →
  qualifies path d = true →
  ∃ es nm, Forall (λ e, validName e = true) (es ++ [nm])
           ∧ path = pathOf (es ++ [nm]) ∧ fs.Name d = nm
           ∧ filepath.Dir path = pathOf es
           ∧ filepath.extOf nm = ".cue".
Proof.
  intros Hv Hin Hq.
  assert (filepath.Ext (fs.Name d) = ".cue") as Hext.
  { unfold qualifies in Hq. rewrite negb_true_iff, !orb_false_iff in Hq.
    destruct Hq as [[_ Hq] _]. apply negb_false_iff in Hq.
    by apply String.eqb_eq. }
  apply (entries_valid fsys [] _ (Forall_nil_2 _) Hv) in Hin as [[= -> ->]|Hin].
  - done.
  - destruct Hin as (es & nm & Hes & -> & Hnm). exists es, nm.
    apply Forall_app in Hes as Hes'. destruct Hes' as [Hes1 [Hnm1 _]%Forall_cons].
    rewrite Hnm, Ext_noSlash in Hext by by apply validName_noSlash.
    repeat split; try done. by apply Dir_pathOf.
Qed.

(** The path of a qualifying entry holds the path of its directory. *)
Lemma qualifying_Contains_Dir (fsys : fs.FS) (path : string) (d : fs.DirEntry) :
  validNames fsys = true → (path, d) ∈ rootEntries fsys →
  qualifies path d = true →
  strings.Contains path (filepath.Dir path) = true.
Proof.
  intros Hv Hin Hq.
  destruct (qualifying_entry fsys path d Hv Hin Hq)
    as (es & nm & Hes & -> & _ & -> & Hext).
  destruct es as [|x es].
  - simpl. destruct (extOf_suffix nm) as [a Ha]. rewrite Hext in Ha.
    rewrite Ha. apply (Contains_intro a "." "cue").
  - change (pathOf ((x :: es) ++ [nm]))
      with (strings.Join ((x :: es) ++ [nm]) "/").
    rewrite Join_snoc by done. apply Contains_HasPrefix, HasPrefix_app.
Qed.

(** ** More than one instance *)

Lemma walkList_seenCovers `{ext : Externals} (rangeImportMap : list string)
    (root : string) (overlay : gmap string string) (inFS : fs.FS)
    (l pre : list (string * fs.DirEntry)) (st st' : walkState) :
  seenCovers pre st →
  walkList (cuetsifyFn rangeImportMap root overlay inFS) l st = (st', fs.Nil) →
  seenCovers (pre ++ l) st'.
Proof.
  revert pre st. induction l as [|[path d] l IH]; intros pre st Hcov Hwalk.
  - injection Hwalk as <-. by rewrite app_nil_r.
  - rewrite walkList_cons in Hwalk.
    replace (pre ++ (path, d) :: l) with ((pre ++ [(path, d)]) ++ l)
      by by rewrite <- app_assoc.
    destruct (qualifies path d
              && negb (bool_decide (filepath.Dir path ∈ seen st))) eqn:E.
    + destruct (cuetsifyFn_routes rangeImportMap root overlay inFS path d st E)
        as (st1 & r1 & Hfn & _ & Hseen & _).
      rewrite Hfn in Hwalk. destruct r1; try done.
      apply (IH _ st1); [|done].
      apply andb_true_iff in E as [Hq _].
      destruct st1 as [seen1 out1 routed1]. simpl in *.
      eapply seenCovers_step; [done|]. simpl. by rewrite Hq.
    + rewrite cuetsifyFn_skips in Hwalk by done.
      apply (IH _ st); [|done].
      destruct st as [seen0 out0 routed0]. eapply seenCovers_step; [done|].
      simpl in *. destruct (qualifies path d) eqn:Hq; [|done].
      simpl in E. apply negb_false_iff, bool_decide_eq_true in E. set_solver.
Qed.

(** C9. When the walk reaches, without error, the first qualifying file of
    a directory that goes to the default strategy, and [load.Instances]
    gives more than one instance for that directory, the run fails: the
    walk stops with the error [path: resulted in more than one instance],
    [CuetsifyPlugins] returns its details, and in a well-formed tree the
    message holds the path of the directory, which the path of the file
    starts with. *)
Theorem generic_more_than_one_instance `{ext : Externals}
    (rangeImportMap : list string) (root : string)
    (overlay : gmap string string)
    (pre post : list (string * fs.DirEntry)) (path : string) (d : fs.DirEntry) :
  validNames CueSchemaFS = true →
  toOverlay prefix CueSchemaFS ∅ = Ok overlay →
  rootEntries CueSchemaFS = pre ++ (path, d) :: post →
  (walkList (cuetsifyFn rangeImportMap root overlay CueSchemaFS) pre
     {| seen := ∅; outfiles := ∅; routed := [] |}).2 = fs.Nil →
  qualifies path d = true →
  sameDirEarlier pre path = false →
  strategyOf path = Generic →
  (1 < length (Instances (clcfg root overlay (filepath.Dir path))))%nat →
  let msg := path +:+ ": resulted in more than one instance" in
  (cuetsify rangeImportMap root overlay CueSchemaFS ∅).2 = fs.Error msg
  ∧ CuetsifyPlugins rangeImportMap root = Err (Details msg)
  ∧ strings.Contains msg "more than one instance" = true
  ∧ strings.Contains msg (filepath.Dir path) = true.
Proof.
  intros Hv Hov Hent Hpre Hq Hearlier Hstrat Hmany msg.
  assert ((cuetsify rangeImportMap root overlay CueSchemaFS ∅).2 = fs.Error msg)
    as Hrun.
  { unfold cuetsify. rewrite WalkDir_root by apply cuetsifyFn_no_skip.
    rewrite Hent, walkList_app.
    destruct (walkList _ pre _) as [st r] eqn:Hwalk. simpl in Hpre. subst r.
    apply (walkList_seenCovers _ _ _ _ _ []) in Hwalk; [|done].
    rewrite walkList_cons. unfold cuetsifyFn.
    rewrite (Hwalk path). cbn [app]. rewrite Hearlier. unfold qualifies in Hq.
    apply negb_true_iff in Hq.
    rewrite !orb_false_iff in Hq. destruct Hq as [[-> ->] ->]. simpl.
    rewrite Hstrat.
    assert (generic (clcfg root overlay (filepath.Dir path)) path = Err msg) as ->;
      [|done].
    unfold generic.
    assert ((1 <? Z.of_nat (length (Instances
               (clcfg root overlay (filepath.Dir path))))) = true) as ->; [|done].
    apply Z.ltb_lt. lia. }
  split; [done|]. split; [|split].
  - unfold CuetsifyPlugins. rewrite Hov. simpl.
    destruct (cuetsify _ _ _ _ _) as [st r]. simpl in Hrun. by subst r.
  - apply Contains_app_r. vm_compute. reflexivity.
  - apply Contains_app_l.
    apply (qualifying_Contains_Dir CueSchemaFS path d); [done| |done].
    rewrite Hent. apply elem_of_app. right. left.
Qed.

Lemma generic_more_than_one_instance_witness :
  let ext := toyExternals vendoredTree twoInstances in
  let msg := "cue.mod/pkg/schema.cue" +:+ ": resulted in more than one instance" in
  (cuetsify (ext := ext) [] "out" ∅ vendoredTree ∅).2 = fs.Error msg
  ∧ CuetsifyPlugins (ext := ext) [] "out" = Err msg
  ∧ strings.Contains msg "more than one instance" = true
  ∧ strings.Contains msg "cue.mod/pkg" = true.
Proof.
  intros ext.
  assert (match toOverlay (ext := ext) prefix vendoredTree ∅ with
          | Ok _ => True | _ => False end) as H0 by (vm_compute; exact I).
  destruct (toOverlay (ext := ext) prefix vendoredTree ∅) as [overlay| |] eqn:Hov;
    [|done..].
  destruct (generic_more_than_one_instance (ext := ext) [] "out" overlay
    (firstn 4 (rootEntries vendoredTree)) (skipn 5 (rootEntries vendoredTree))
    "cue.mod/pkg/schema.cue" {| fs.Name := "schema.cue"; fs.IsDir := false |})
    as (H1 & H2 & H3 & H4);
    [vm_compute; reflexivity|exact Hov|vm_compute; reflexivity..|].
  split; [vm_compute; reflexivity|]. split; [exact H2|]. split; [exact H3|].
  exact H4.
Defined.

(** ** The overlay of the loader *)

Lemma findModule_nonempty `{ext : Externals} (modFS : fs.FS) (modname : string) :
  findModule modFS = Ok modname → modname ≠ "".
Proof.
  unfold findModule. destruct (fs.WalkDir _ _ _ _) as [m r].
  destruct r; try done; destruct (String.eqb_spec m ""); try done;
    by intros [= <-].
Qed.

(** ** More on the overlay builder *)

Lemma toOverlay_walk_sources prefix vfs l (ov0 ov : gmap string string) k b :
  walkList (toOverlayFn prefix vfs) l ov0 = (ov, fs.Nil) →
  ov !! k = Some b →
  ov0 !! k = Some b
  ∨ ∃ p d, (p, d) ∈ l ∧ fs.IsDir d = false
           ∧ k = filepath.Join [prefix; p] ∧ fs.ReadFile vfs p = inr b.
Proof.
  revert ov0. induction l as [|[p d] l IH]; intros ov0 Hwalk Hk.
  - injection Hwalk as <-. by left.
  - rewrite walkList_cons in Hwalk. unfold toOverlayFn in Hwalk.
    destruct (fs.IsDir d) eqn:Hd.
    + destruct (IH _ Hwalk Hk) as [?|(p' & d' & ? & ?)]; [by left|].
      right. exists p', d'. split; [by right|done].
    + destruct (fs.ReadFile vfs p) as [e|b'] eqn:Hread; [done|].
      destruct (IH _ Hwalk Hk) as [Hold|(p' & d' & ? & ?)].
      * rewrite lookup_insert in Hold. case_decide as Heq.
        -- injection Hold as <-. right. exists p, d. split; [left|]. done.
        -- by left.
      * right. exists p', d'. split; [by right|done].
Qed.

(** X1. An overlay that [toOverlay] returns holds nothing but what the
    overlay held before and the bytes of regular files of the tree, each at
    the prefix joined with the path of the file: no directory gets an
    entry. *)
Theorem toOverlay_sources `{ext : Externals} (prefix : string) (vfs : fs.FS)
    (ov0 ov : gmap string string) (k b : string) :
  toOverlay prefix vfs ov0 = Ok ov →
  ov !! k = Some b →
  ov0 !! k = Some b
  ∨ ∃ p d, (p, d) ∈ rootEntries vfs ∧ fs.IsDir d = false
           ∧ k = filepath.Join [prefix; p] ∧ fs.ReadFile vfs p = inr b.
Proof. intros H%toOverlay_walkList. by apply toOverlay_walk_sources. Qed.

Lemma toOverlay_sources_witness :
  (∅ : gmap string string) !! "/lib/lineage.cue" = Some "package thema"
  ∨ ∃ p d, (p, d) ∈ rootEntries toyLibrary ∧ fs.IsDir d = false
           ∧ "/lib/lineage.cue" = filepath.Join ["/lib"; p]
           ∧ fs.ReadFile toyLibrary p = inr "package thema".
Proof.
  assert (toOverlay (ext := toyExternals emptyFS oneInstance) "/lib" toyLibrary ∅
          = Ok libraryOverlay) as Hov.
  { assert (match toOverlay (ext := toyExternals emptyFS oneInstance) "/lib"
                    toyLibrary ∅ with
            | Ok _ => True | _ => False end) as H by (vm_compute; exact I).
    unfold libraryOverlay.
    by destruct (toOverlay (ext := toyExternals emptyFS oneInstance) "/lib"
                   toyLibrary ∅). }
  apply (toOverlay_sources (ext := toyExternals emptyFS oneInstance)
           "/lib" toyLibrary ∅ libraryOverlay "/lib/lineage.cue" "package thema" Hov).
  vm_compute. reflexivity.
Defined.

(** X2. The first regular file that cannot be read ends the build: its error
    is returned and no overlay. *)
Theorem toOverlay_read_error `{ext : Externals} (prefix : string) (vfs : fs.FS)
    (ov0 : gmap string string) (pre post : list (string * fs.DirEntry))
    (p : string) (d : fs.DirEntry) (e : error) :
  filepath.IsAbs prefix = true →
  rootEntries vfs = pre ++ (p, d) :: post →
  Forall (λ q, fs.IsDir q.2 = true ∨ ∃ b, fs.ReadFile vfs q.1 = inr b) pre →
  fs.IsDir d = false →
  fs.ReadFile vfs p = inl e →
  toOverlay prefix vfs ov0 = Err e.
Proof.
  intros Habs Hent Hpre Hd He. unfold toOverlay. rewrite Habs. simpl.
  rewrite WalkDir_root by apply toOverlayFn_no_skip. rewrite Hent, walkList_app.
  assert (∃ ov1, walkList (toOverlayFn prefix vfs) pre ov0 = (ov1, fs.Nil))
    as [ov1 ->].
  { clear Hent. revert ov0. induction Hpre as [|[q dq] pre Hq _ IH]; intros ov0.
    - by exists ov0.
    - rewrite walkList_cons. unfold toOverlayFn. simpl in Hq.
      destruct Hq as [->|[b Hb]]; [apply IH|].
      destruct (fs.IsDir dq); [apply IH|]. rewrite Hb. apply IH. }
  rewrite walkList_cons. unfold toOverlayFn. by rewrite Hd, He.
Qed.

Lemma toOverlay_read_error_witness :
  toOverlay (ext := toyExternals emptyFS oneInstance) "/lib" unreadableTree ∅
  = Err "open b.cue: permission denied".
Proof.
  apply (toOverlay_read_error (ext := toyExternals emptyFS oneInstance)
           "/lib" unreadableTree ∅ (firstn 2 (rootEntries unreadableTree))
           (skipn 3 (rootEntries unreadableTree)) "b.cue"
           {| fs.Name := "b.cue"; fs.IsDir := false |}).
  - reflexivity.
  - vm_compute. reflexivity.
  - vm_compute. constructor; [by left|]. constructor; [right; eauto|].
    constructor.
  - reflexivity.
  - vm_compute. reflexivity.
Defined.

(** ** More on the loader *)

Section WalkDirFacts.
Context {S : Type}.
Variable fn : string → fs.DirEntry → option error → S → S * fs.signal.

(** What holds of the state before a walk and is kept by the walk function
    holds after the walk. *)
Lemma walkDir_invariant (P : S → Prop) :
  (∀ name d s, P s → P (fn name d None s).1) →
  ∀ n name d s, P s → P (fs.walkDir fn name d n s).1.
Proof.
  intros Hfn. induction n as [data|es IH] using FS_tree_ind; intros name d s Hs.
  - simpl. specialize (Hfn name d s Hs).
    destruct (fn name d None s) as [s1 []]; done.
  - simpl. specialize (Hfn name d s Hs).
    destruct (fn name d None s) as [s1 r]. simpl in Hfn.
    destruct r; try done. clear Hs s. revert s1 Hfn.
    induction IH as [|[n1 c] es Hc _ IHes]; intros s Hs; [done|].
    simpl in Hc. specialize (Hc (filepath.Join [name; n1])
      {| fs.Name := n1; fs.IsDir := fs.isDirectory c |} s Hs).
    destruct (fs.walkDir fn _ _ c s) as [s2 r]. simpl in Hc.
    destruct r; try done. by apply IHes.
Qed.

Hypothesis fn_files : ∀ name d s,
  fs.IsDir d = false → (fn name d None s).2 ≠ fs.SkipDir.

(** [SkipDir] comes out of [walkDir] only from a file. *)
Lemma walkDir_no_skip (n : fs.FS) (name : string) (d : fs.DirEntry) (s : S) :
  fs.IsDir d = fs.isDirectory n → (fs.walkDir fn name d n s).2 ≠ fs.SkipDir.
Proof.
  destruct n as [data|es]; intros Hd; simpl.
  - specialize (fn_files name d s Hd).
    destruct (fn name d None s) as [s1 []]; simpl in *; done.
  - destruct (fn name d None s) as [s1 r]. destruct r; try done.
    + clear Hd. generalize s1. clear s1.
      induction es as [|[n1 c] es IH]; intros s1; [done|].
      destruct (fs.walkDir fn _ _ c s1) as [s2 []]; simpl; try done;
        try apply IH.
    + by rewrite Hd.
Qed.

(** A directory the walk function fails on is reached when the function
    lets the walk through the directories above it: the walk fails. *)
Lemma walkDir_reaches (es : list string) :
  ∀ n name d s target,
  fs.lookup n es = Some target → fs.isDirectory target = true →
  fs.IsDir d = fs.isDirectory n →
  onPath fn name es →
  isError (fs.walkDir fn name d n s).2.
Proof.
  induction es as [|e es IH]; intros n name d s target Hlook Htarget Hd Hpath.
  - injection Hlook as ->. rewrite Htarget in Hd. simpl in Hpath.
    specialize (Hpath d s Hd). destruct target as [|entries]; [done|]. simpl.
    destruct (fn name d None s) as [s1 []]; done.
  - destruct n as [data|entries]; [done|]. destruct Hpath as [Hnil Hrest].
    simpl in Hlook. simpl. specialize (Hnil d s Hd).
    destruct (fn name d None s) as [s1 r]. simpl in Hnil. subst r.
    generalize s1. clear s1 s.
    induction entries as [|[n1 c] entries IHent]; intros s; [done|].
    simpl in Hlook. destruct (String.eqb_spec n1 e) as [->|Hne].
    + destruct (fs.lookup c es) as [t|] eqn:Hc; [|by destruct c].
      assert (isError (fs.walkDir fn (filepath.Join [name; e])
                {| fs.Name := e; fs.IsDir := fs.isDirectory c |} c s).2) as Herr.
      { eapply IH; [| |done|done]; [|done]. by destruct c; injection Hlook as ->. }
      destruct (fs.walkDir fn _ _ c s) as [s2 []]; done.
    + pose proof (walkDir_no_skip c (filepath.Join [name; n1])
        {| fs.Name := n1; fs.IsDir := fs.isDirectory c |} s eq_refl) as Hns.
      destruct (fs.walkDir fn _ _ c s) as [s2 []]; simpl in *; try done.
      by apply IHent.
Qed.

End WalkDirFacts.

Lemma IsAbs_head (a : string) :
  filepath.IsAbs a = true → ∃ a', a = String "/"%char a'.
Proof.
  unfold filepath.IsAbs. destruct a as [|c a']; [done|].
  rewrite HasPrefix_slash. intros ->%Ascii.eqb_eq. eauto.
Qed.

Lemma Clean_abs (p : string) :
  filepath.IsAbs p = true → filepath.IsAbs (filepath.Clean p) = true.
Proof.
  unfold filepath.IsAbs at 1. unfold filepath.Clean. intros ->. cbv iota.
  unfold filepath.IsAbs. rewrite app_cons, HasPrefix_slash. reflexivity.
Qed.

(** Joining to an absolute path gives an absolute path. *)
Lemma Join_abs (a : string) (rest : list string) :
  filepath.IsAbs a = true → filepath.IsAbs (filepath.Join (a :: rest)) = true.
Proof.
  intros Ha. destruct (IsAbs_head a Ha) as [a' ->].
  unfold filepath.Join. simpl String.eqb. cbv iota. apply Clean_abs.
  unfold filepath.IsAbs. destruct rest as [|b rest].
  - change (strings.Join [String "/"%char a'] "/") with (String "/"%char a').
    by rewrite HasPrefix_slash.
  - change (strings.Join (String "/"%char a' :: b :: rest) "/")
      with (String "/"%char a' +:+ "/" +:+ strings.Join (b :: rest) "/").
    by rewrite app_cons, HasPrefix_slash.
Qed.

(** X3. Whatever the module name and the directory, the load configuration
    of the loader has an absolute module root and an absolute directory, the
    module root being a prefix check away from the overlay: the root is
    [/] joined with the module name. *)
Theorem themaConfig_absolute (overlay : gmap string string)
    (modname dir pkgname : string) :
  let cfg := themaConfig overlay modname dir pkgname in
  filepath.IsAbs (load.ModuleRoot cfg) = true
  ∧ filepath.IsAbs (load.Dir cfg) = true
  ∧ load.ModuleRoot cfg = filepath.Join ["/"; modname]
  ∧ load.Module cfg = modname.
Proof.
  unfold themaConfig, filepath.FromSlash.
  destruct (String.eqb (if String.eqb dir "" then "." else dir) ".");
    cbn [load.ModuleRoot load.Dir load.Module];
    repeat split; repeat apply Join_abs; reflexivity.
Qed.

Lemma toOverlay_walk_error prefix vfs l (ov0 ov : gmap string string) r :
  walkList (toOverlayFn prefix vfs) l ov0 = (ov, r) →
  r = fs.Nil
  ∨ ∃ p d e, (p, d) ∈ l ∧ fs.IsDir d = false
             ∧ fs.ReadFile vfs p = inl e ∧ r = fs.Error e.
Proof.
  revert ov0. induction l as [|[p d] l IH]; intros ov0 Hwalk.
  - injection Hwalk as <- <-. by left.
  - rewrite walkList_cons in Hwalk. unfold toOverlayFn in Hwalk.
    destruct (fs.IsDir d) eqn:Hd.
    + destruct (IH _ Hwalk) as [?|(p' & d' & e & ? & ?)]; [by left|].
      right. exists p', d', e. split; [by right|done].
    + destruct (fs.ReadFile vfs p) as [e|b] eqn:Hread.
      * injection Hwalk as <- <-. right. exists p, d, e. split; [left|done].
      * destruct (IH _ Hwalk) as [?|(p' & d' & e & ? & ?)]; [by left|].
        right. exists p', d', e. split; [by right|done].
Qed.

Lemma toOverlay_abs_error `{ext : Externals} prefix vfs
    (ov0 : gmap string string) :
  filepath.IsAbs prefix = true →
  match toOverlay prefix vfs ov0 with
  | Ok _ => True
  | Err e => ∃ p d, (p, d) ∈ rootEntries vfs ∧ fs.IsDir d = false
                    ∧ fs.ReadFile vfs p = inl e
  | Panic _ => False
  end.
Proof.
  intros Habs. unfold toOverlay. rewrite Habs. simpl.
  rewrite WalkDir_root by apply toOverlayFn_no_skip.
  destruct (walkList _ _ _) as [ov r] eqn:Hwalk.
  apply toOverlay_walk_error in Hwalk as [->|(p & d & e & ? & ? & ? & ->)];
    eauto.
Qed.

(** X4. The overlay step of the loader never panics and never fails on its
    prefix; when it fails, a regular file of the module tree or of the thema
    tree it overlays could not be read, and the error is the error of that
    file. *)
Theorem themaOverlay_error `{ext : Externals} (modFS : fs.FS)
    (modname : string) :
  (∀ p, themaOverlay modFS modname ≠ Panic p)
  ∧ ∀ e, themaOverlay modFS modname = Err e →
         ∃ vfs p d, (vfs = modFS ∨ vfs = CueFS ∨ vfs = CueJointFS)
                    ∧ (p, d) ∈ rootEntries vfs ∧ fs.IsDir d = false
                    ∧ fs.ReadFile vfs p = inl e.
Proof.
  unfold themaOverlay, filepath.FromSlash.
  pose proof (toOverlay_abs_error (filepath.Join ["/"; modname]) modFS ∅
                (Join_abs "/" [modname] eq_refl)) as H1.
  destruct (toOverlay (filepath.Join ["/"; modname]) modFS ∅) as [ov1|e1|];
    [|split; [done|]; intros e [= <-]; destruct H1 as (p & d & ?);
      exists modFS, p, d; auto|done].
  simpl. destruct (String.eqb modname themaModule).
  - pose proof (toOverlay_abs_error (filepath.Join ["/"; modname]) CueJointFS ov1
                  (Join_abs "/" [modname] eq_refl)) as H2.
    destruct (toOverlay _ CueJointFS ov1) as [ov2|e2|]; [done| |done].
    split; [done|]. intros e [= <-]. destruct H2 as (p & d & ?).
    exists CueJointFS, p, d. auto.
  - pose proof (toOverlay_abs_error
                  (filepath.Join [filepath.Join ["/"; modname]; themamodpath])
                  CueFS ov1 (Join_abs _ _ (Join_abs "/" [modname] eq_refl))) as H2.
    destruct (toOverlay _ CueFS ov1) as [ov2|e2|]; [done| |done].
    split; [done|]. intros e [= <-]. destruct H2 as (p & d & ?).
    exists CueFS, p, d. auto.
Qed.

Lemma themaOverlay_error_witness :
  ∃ vfs p d,
    (vfs = unreadableTree ∨ vfs = toyLibrary ∨ vfs = toyLibrary)
    ∧ (p, d) ∈ rootEntries vfs ∧ fs.IsDir d = false
    ∧ fs.ReadFile vfs p = inl "open b.cue: permission denied".
Proof.
  apply (proj2 (themaOverlay_error (ext := toyExternals emptyFS oneInstance)
                  unreadableTree "example.com/mod")).
  vm_compute. reflexivity.
Defined.

Lemma moduleWalkFn_files `{ext : Externals} (modFS : fs.FS) name d s :
  fs.IsDir d = false → (moduleWalkFn modFS name d None s).2 ≠ fs.SkipDir.
Proof.
  intros Hd. unfold moduleWalkFn. rewrite Hd.
  destruct (String.eqb _ _); [|done].
  destruct (fs.ReadFile modFS name); [done|].
  destruct (moduleName _) as [m| |]; try done. by destruct (String.eqb m "").
Qed.

(** X5. The module name [findModule] returns is the one the module file
    declares: the file [cue.mod/module.cue] could be read, the name is what
    the CUE evaluator gives for its [module] field, and it is not empty. *)
Theorem findModule_declared `{ext : Externals} (modFS : fs.FS) (modname : string) :
  findModule modFS = Ok modname →
  modname ≠ ""
  ∧ ∃ b, fs.ReadFile modFS "cue.mod/module.cue" = inr b
         ∧ moduleName b = Ok modname.
Proof.
  intros Hfind. split; [by eapply findModule_nonempty|].
  set (P := λ s : string,
         s = "" ∨ ∃ b, fs.ReadFile modFS "cue.mod/module.cue" = inr b
                       ∧ moduleName b = Ok s).
  assert (∀ name d err s, P s → P (moduleWalkFn modFS name d err s).1) as Hfn.
  { intros name d err s Hs. unfold moduleWalkFn, filepath.FromSlash.
    destruct err; [done|]. destruct (fs.IsDir d).
    - destruct (_ || _); [done|]. by destruct (String.eqb name themamodpath).
    - destruct (String.eqb_spec name (filepath.Join ["cue.mod"; "module.cue"]))
        as [->|]; [|done].
      destruct (fs.ReadFile modFS _) as [e|b] eqn:Hread; [done|].
      destruct (moduleName b) as [m| |] eqn:Hm; [|by left|done].
      destruct (String.eqb_spec m "") as [->|]; [by left|].
      right. exists b. done. }
  assert (P (fs.WalkDir (moduleWalkFn modFS) modFS "cue.mod" "").1) as HP.
  { unfold fs.WalkDir. destruct (fs.stat modFS "cue.mod") as [n|].
    - pose proof (walkDir_invariant (moduleWalkFn modFS) P
        (λ name d s, Hfn name d None s) n "cue.mod"
        {| fs.Name := filepath.Base "cue.mod"; fs.IsDir := fs.isDirectory n |}
        "" (or_introl eq_refl)) as H.
      by destruct (fs.walkDir _ _ _ n "").
    - pose proof (Hfn "cue.mod"
        {| fs.Name := filepath.Base "cue.mod"; fs.IsDir := false |}
        (Some (fs.notExist "stat" "cue.mod")) "" (or_introl eq_refl)) as H.
      by destruct (moduleWalkFn _ _ _ _ _). }
  unfold findModule in Hfind.
  destruct (fs.WalkDir _ _ _ _) as [m r]. simpl in HP.
  destruct r; try done; destruct (String.eqb_spec m ""); try done;
    injection Hfind as <-; by destruct HP.
Qed.

Lemma findModule_declared_witness :
  "github.com/grafana/grafana" ≠ ""
  ∧ ∃ b, fs.ReadFile pluginTree "cue.mod/module.cue" = inr b
         ∧ @moduleName (toyExternals emptyFS oneInstance) b
           = Ok "github.com/grafana/grafana".
Proof.
  apply (findModule_declared (ext := toyExternals emptyFS oneInstance) pluginTree).
  vm_compute. reflexivity.
Defined.

(** X6. A module tree that holds a directory at
    [cue.mod/pkg/github.com/grafana/thema] is never loaded: [findModule]
    fails on it, and so does [loadInstancesWithThema], whatever else the
    tree holds. *)
Theorem vendored_thema_rejected `{ext : Externals} (modFS : fs.FS)
    (es : list (string * fs.FS)) (dir pkgname : string) :
  fs.stat modFS themamodpath = Some (fs.Directory es) →
  (∀ modname, findModule modFS ≠ Ok modname)
  ∧ (∀ inst, loadInstancesWithThema modFS dir pkgname ≠ Ok inst).
Proof.
  intros Hstat.
  assert (∀ modname, findModule modFS ≠ Ok modname) as Hfind.
  { intros modname. unfold findModule, fs.WalkDir.
    change (fs.stat modFS themamodpath)
      with (fs.lookup modFS ["cue.mod"; "pkg"; "github.com"; "grafana"; "thema"])
      in Hstat.
    change (fs.stat modFS "cue.mod") with (fs.lookup modFS ["cue.mod"]).
    destruct modFS as [data|entries]; [done|]. simpl in Hstat. simpl fs.lookup.
    destruct (fs.find "cue.mod" entries) as [n|]; [|done].
    assert (fs.isDirectory n = true) as Hn by by destruct n.
    pose proof (walkDir_reaches (moduleWalkFn (fs.Directory entries))
      (moduleWalkFn_files _) ["pkg"; "github.com"; "grafana"; "thema"] n
      "cue.mod" {| fs.Name := filepath.Base "cue.mod"; fs.IsDir := fs.isDirectory n |}
      "" (fs.Directory es) Hstat eq_refl eq_refl) as Herr.
    destruct (fs.walkDir _ _ _ n "") as [m r]. simpl in Herr.
    destruct r; try done; exfalso; apply Herr;
      repeat split; intros d s Hd; unfold moduleWalkFn; by rewrite Hd. }
  split; [done|]. intros inst. unfold loadInstancesWithThema.
  destruct (findModule modFS) as [m| |]; [|done..]. by destruct (Hfind m).
Qed.

Lemma vendored_thema_rejected_witness :
  (∀ modname, findModule (ext := toyExternals emptyFS oneInstance)
                themaVendoredTree ≠ Ok modname)
  ∧ (∀ inst, loadInstancesWithThema (ext := toyExternals emptyFS oneInstance)
               themaVendoredTree "" "grafanaschema" ≠ Ok inst).
Proof.
  apply (vendored_thema_rejected (ext := toyExternals emptyFS oneInstance)
           themaVendoredTree []).
  vm_compute. reflexivity.
Defined.

(** ** More on the import loop *)

(** X7. The loop over the imports of a file never panics, and it returns
    imports exactly when the path of every import is a key of [importMap]:
    one import outside the table fails the whole file, wherever it
    stands. *)
Theorem importsLoop_ok_iff `{ext : Externals} (rangeImportMap : list string)
    (path : string) (ims : list ast.ImportSpec)
    (iseen : gset string) (imports : list tsImport) :
  ((∃ res, importsLoop rangeImportMap path ims iseen imports = Ok res)
   ↔ Forall (λ im, is_Some (importMap !! ast.importPath im)) ims)
  ∧ ∀ p, importsLoop rangeImportMap path ims iseen imports ≠ Panic p.
Proof.
  split; [split|].
  - revert iseen imports. induction ims as [|im ims IH]; intros iseen imports;
      [by constructor|].
    simpl. destruct (importMap !! ast.importPath im) as [mappath|] eqn:Hm;
      [|by intros [res ?]].
    intros Hres. constructor; [eauto|].
    destruct (_ && _); by eapply IH.
  - apply importsLoop_known.
  - revert iseen imports. induction ims as [|im ims IH]; intros iseen imports p;
      [done|].
    simpl. destruct (importMap !! ast.importPath im); [|done].
    destruct (_ && _); apply IH.
Qed.

(** Only the schema package has a specifier that is not empty. *)
Lemma importMap_specifier (k mappath : string) :
  importMap !! k = Some mappath → mappath ≠ "" → k = schemasPath.
Proof.
  unfold importMap. rewrite lookup_insert. case_decide; [by intros [= <-]|].
  rewrite lookup_insert. case_decide; [done|]. by rewrite lookup_empty.
Qed.

Lemma importsLoop_kept `{ext : Externals} (rangeImportMap : list string)
    (path : string) (ims : list ast.ImportSpec) :
  ∀ (iseen : gset string) (imports res : list tsImport),
  importsLoop rangeImportMap path ims iseen imports = Ok res →
  ∃ kept, res = imports ++ map convertImport kept
          ∧ NoDup (ast.importPath <$> kept)
          ∧ ∀ im, im ∈ kept →
                  im ∈ ims ∧ (ast.importPath im ∉ iseen)
                  ∧ ast.importPath im = schemasPath.
Proof.
  induction ims as [|im ims IH]; intros iseen imports res; simpl.
  - intros [= <-]. exists []. rewrite app_nil_r. split; [done|].
    split; [constructor|]. by intros ? ?%elem_of_nil.
  - destruct (importMap !! ast.importPath im) as [mappath|] eqn:Hm; [|done].
    destruct (String.eqb_spec mappath "") as [->|Hne]; simpl.
    + intros (kept & -> & Hnd & Hkept)%IH. exists kept.
      split; [done|]. split; [done|]. intros im' Him'.
      destruct (Hkept im' Him') as (? & ? & ?). split; [by right|done].
    + case_bool_decide as Hseen; simpl.
      * intros (kept & -> & Hnd & Hkept)%IH. exists kept.
        split; [done|]. split; [done|]. intros im' Him'.
        destruct (Hkept im' Him') as (? & ? & ?). split; [by right|done].
      * intros (kept & -> & Hnd & Hkept)%IH. exists (im :: kept).
        split; [by rewrite <- app_assoc|]. split.
        -- simpl. constructor; [|done].
           intros (im' & Heq & Him')%list_elem_of_fmap.
           destruct (Hkept im' Him') as (_ & Hnot & _). set_solver.
        -- intros im' [->|Him']%elem_of_cons.
           ++ split; [left|]. split; [done|].
              by eapply importMap_specifier.
           ++ destruct (Hkept im' Him') as (? & ? & ?).
              split; [by right|]. split; [set_solver|done].
Qed.

(** X8. A file gives at most one Translated Import, and it comes from an
    import of the schema package: of the two paths of [importMap] only that
    one has a specifier, and a path is converted once. *)
Theorem importsLoop_at_most_one `{ext : Externals} (rangeImportMap : list string)
    (path : string) (ims : list ast.ImportSpec) (res : list tsImport) :
  importsLoop rangeImportMap path ims ∅ [] = Ok res →
  res = []
  ∨ ∃ im, im ∈ ims ∧ ast.importPath im = schemasPath
          ∧ res = [convertImport im].
Proof.
  intros (kept & -> & Hnd & Hkept)%importsLoop_kept.
  destruct kept as [|im1 [|im2 kept]]; [by left| |].
  - right. exists im1. destruct (Hkept im1) as (? & _ & ?); [left|]. done.
  - exfalso. destruct (Hkept im1) as (_ & _ & H1); [left|].
    destruct (Hkept im2) as (_ & _ & H2); [right; left|].
    simpl in Hnd. apply NoDup_cons in Hnd as [Hnot _]. apply Hnot.
    rewrite H1, <- H2. left.
Qed.

Lemma importsLoop_at_most_one_witness :
  [convertImport uiImport] = []
  ∨ ∃ im, im ∈ [themaImport; uiImport; schemaImport]
          ∧ ast.importPath im = schemasPath
          ∧ [convertImport uiImport] = [convertImport im].
Proof.
  apply (importsLoop_at_most_one (ext := toyExternals emptyFS oneInstance) []
           "plugin/models.cue" [themaImport; uiImport; schemaImport]).
  vm_compute. reflexivity.
Defined.

(** ** The output collector *)

Section Outputs.
Context {ext : Externals}.
Variable rangeImportMap : list string.
Variables (root : string) (overlay : gmap string string) (inFS : fs.FS).

(** A routed file whose strategy succeeds writes its output. *)
Lemma cuetsifyFn_writes path d st st1 :
  qualifies path d && negb (bool_decide (filepath.Dir path ∈ seen st)) = true →
  cuetsifyFn rangeImportMap root overlay inFS path d None st = (st1, fs.Nil) →
  ∃ f, outfiles st1 = <[outputPath root path := tsTemplate f]> (outfiles st)
       ∧ routed st1 = routed st ++ [(path, strategyOf path)].
Proof.
  unfold qualifies, cuetsifyFn. intros H.
  destruct (fs.IsDir d), (String.eqb (filepath.Ext (fs.Name d)) ".cue"),
    (bool_decide (filepath.Dir path ∈ seen st)), (exclude path);
    simpl in H; try discriminate H; simpl.
  destruct (match strategyOf path with
            | Generic => generic _ path
            | Plugin => plugin rangeImportMap inFS path (filepath.Dir path)
            end) as [f|e|p]; [|done..].
  intros [= <-]. by exists f.
Qed.

(** After a walk without error the collector holds what it held before and
    one entry for each file routed on the way. *)
Lemma cuetsify_walk_outputs l st st' :
  walkList (cuetsifyFn rangeImportMap root overlay inFS) l st = (st', fs.Nil) →
  ∃ new, (routed st').*1 = (routed st).*1 ++ new
         ∧ ∀ k, is_Some (outfiles st' !! k)
                ↔ is_Some (outfiles st !! k)
                  ∨ ∃ p, p ∈ new ∧ k = outputPath root p.
Proof.
  revert st. induction l as [|[path d] l IH]; intros st Hwalk.
  - injection Hwalk as <-. exists []. rewrite app_nil_r. split; [done|].
    intros k. split; [auto|]. by intros [?|(p & ?%elem_of_nil & _)].
  - rewrite walkList_cons in Hwalk.
    destruct (qualifies path d
              && negb (bool_decide (filepath.Dir path ∈ seen st))) eqn:E.
    + destruct (cuetsifyFn _ _ _ _ path d None st) as [st1 r1] eqn:Hfn.
      destruct r1; try done.
      destruct (cuetsifyFn_writes path d st st1 E Hfn) as (f & Hout & Hrouted).
      destruct (IH _ Hwalk) as (new & Hnew & Hkeys).
      exists (path :: new). rewrite Hnew, Hrouted, fmap_app, <- app_assoc.
      split; [done|]. intros k. rewrite Hkeys, Hout, lookup_insert.
      destruct (decide (outputPath root path = k)) as [Hk|Hk].
      * subst k. split; [|intros _; left; by eexists]. intros _. right.
        exists path. split; [left|done].
      * split.
        -- intros [?|(p & ? & ?)]; [by left|]. right. exists p.
           split; [by right|done].
        -- intros [?|(p & [->|?]%elem_of_cons & ?)]; [by left|done|].
           right. by exists p.
    + rewrite cuetsifyFn_skips in Hwalk by done. by apply IH.
Qed.

End Outputs.

(** X9. The keys of the output a run returns are the output paths of the
    representatives of the directories, one for each, no more: a file that
    was not routed has no output, and every routed file has one. *)
Theorem CuetsifyPlugins_outputs `{ext : Externals} (rangeImportMap : list string)
    (root : string) (out : gmap string string) (k : string) :
  CuetsifyPlugins rangeImportMap root = Ok out →
  is_Some (out !! k)
  ↔ ∃ p, p ∈ representatives (rootEntries CueSchemaFS) ∧ k = outputPath root p.
Proof.
  unfold CuetsifyPlugins.
  destruct (toOverlay prefix CueSchemaFS ∅) as [overlay| |]; simpl; try done.
  pose proof (cuetsify_routed rangeImportMap root overlay CueSchemaFS ∅)
    as [_ Hall].
  unfold cuetsify in *. rewrite WalkDir_root in * by apply cuetsifyFn_no_skip.
  pose proof (walkList_no_skip _
    (cuetsifyFn_no_skip rangeImportMap root overlay CueSchemaFS)
    (rootEntries CueSchemaFS) {| seen := ∅; outfiles := ∅; routed := [] |}) as Hns.
  destruct (walkList _ _ _) as [st r] eqn:Hwalk. simpl in *.
  destruct r; try done. intros [= <-].
  apply cuetsify_walk_outputs in Hwalk as (new & Hnew & Hkeys).
  simpl in Hnew. rewrite Hkeys, <- Hall, Hnew by done. simpl.
  rewrite lookup_empty. split; [intros [[]%is_Some_None|?]; done|auto].
Qed.

Lemma CuetsifyPlugins_outputs_witness :
  match CuetsifyPlugins (ext := toyExternals vendoredTree oneInstance) [] "out" with
  | Ok out => is_Some (out !! "out/kinds/dashboard.gen.ts")
              ∧ ¬ is_Some (out !! "out/kinds/playlist.gen.ts")
  | _ => False
  end.
Proof.
  assert (match CuetsifyPlugins (ext := toyExternals vendoredTree oneInstance)
                  [] "out" with
          | Ok _ => True | _ => False end) as Hrun by (vm_compute; exact I).
  destruct (CuetsifyPlugins (ext := toyExternals vendoredTree oneInstance)
              [] "out") as [out| |] eqn:Hout; [|done..].
  pose proof (CuetsifyPlugins_outputs (ext := toyExternals vendoredTree oneInstance)
                [] "out" out) as H.
  split.
  - apply H; [done|]. exists "kinds/dashboard.cue". split; [|done].
    apply list_elem_of_lookup. exists 1%nat. vm_compute. reflexivity.
  - intros (p & Hp & Hk)%H; [|done].
    assert (representatives (rootEntries vendoredTree)
            = ["cue.mod/pkg/schema.cue"; "kinds/dashboard.cue"]) as Hrep
      by (vm_compute; reflexivity).
    change (@CueSchemaFS (toyExternals vendoredTree oneInstance))
      with vendoredTree in Hp.
    rewrite Hrep in Hp.
    apply elem_of_cons in Hp as [->|Hp]; [vm_compute in Hk; discriminate Hk|].
    apply list_elem_of_singleton in Hp as ->. vm_compute in Hk. discriminate Hk.
Defined.


(** ** Keys of the overlay *)

Lemma Split_elems_noSlash (s : string) :
  Forall (λ e, noSlash e = true) (strings.Split s "/"%char).
Proof.
  induction s as [|c s IH]; [by repeat constructor|]. simpl.
  destruct (Ascii.eqb c "/"%char) eqn:Hc; [by constructor|].
  destruct (strings.Split s "/"%char) as [|piece rest].
  - constructor; [|constructor]. simpl. by rewrite Hc.
  - apply Forall_cons in IH as [Hp Hr]. constructor; [|done].
    simpl. by rewrite Hc.
Qed.

Lemma validName_intro (e : string) :
  noSlash e = true → e ≠ "" → e ≠ "." → e ≠ ".." → validName e = true.
Proof.
  intros Hs H1 H2 H3. unfold validName. rewrite Hs. simpl.
  by rewrite !(proj2 (String.eqb_neq _ _)).
Qed.

(** Cleaning a rooted path keeps valid elements only. *)
Lemma cleanStep_rooted_valid (out : list string) (e : string) :
  noSlash e = true → Forall (λ e, validName e = true) out →
  Forall (λ e, validName e = true) (filepath.cleanStep true out e).
Proof.
  intros He Hout. unfold filepath.cleanStep.
  destruct (String.eqb_spec e "") as [->|H1]; [done|].
  destruct (String.eqb_spec e ".") as [->|H2]; [done|].
  destruct (String.eqb_spec e "..") as [->|H3]; simpl.
  - destruct out as [|top out]; [done|].
    apply Forall_cons in Hout as [Htop Hout].
    destruct (String.eqb_spec top "..") as [->|]; [done|done].
  - constructor; [|done]. by apply validName_intro.
Qed.

Lemma cleanSteps_rooted_valid (l out : list string) :
  Forall (λ e, noSlash e = true) l → Forall (λ e, validName e = true) out →
  Forall (λ e, validName e = true) (fold_left (filepath.cleanStep true) l out).
Proof.
  intros Hl. revert out. induction Hl as [|e l He _ IH]; intros out Hout; [done|].
  simpl. apply IH. by apply cleanStep_rooted_valid.
Qed.

Lemma cleanElems_rooted_valid (s : string) :
  Forall (λ e, validName e = true)
    (filepath.cleanElems true (strings.Split s "/"%char)).
Proof.
  unfold filepath.cleanElems. apply Forall_rev.
  apply cleanSteps_rooted_valid; [apply Split_elems_noSlash|constructor].
Qed.

(** The key of an entry: the elements of the prefix, then those of the
    path. *)
Lemma Join_abs_pathOf (prefix : string) (es : list string) :
  filepath.IsAbs prefix = true → Forall (λ e, validName e = true) es →
  filepath.Join [prefix; pathOf es]
  = "/" +:+ strings.Join
              (filepath.cleanElems true (strings.Split prefix "/"%char) ++ es) "/".
Proof.
  intros Habs Hes. destruct (IsAbs_head prefix Habs) as [a' ->].
  unfold filepath.Join. simpl String.eqb. cbv iota.
  change (strings.Join [String "/"%char a'; pathOf es] "/")
    with (String "/"%char a' +:+ String "/"%char (pathOf es)).
  unfold filepath.Clean. rewrite app_cons, HasPrefix_slash. simpl Ascii.eqb.
  cbv iota. f_equal. f_equal. rewrite <- app_cons, Split_app_slash.
  unfold filepath.cleanElems. rewrite fold_left_app.
  set (S0 := fold_left (filepath.cleanStep true)
               (strings.Split (String "/"%char a') "/"%char) []).
  destruct es as [|x es].
  - change (strings.Split (pathOf []) "/"%char) with ["."].
    simpl. by rewrite app_nil_r.
  - change (pathOf (x :: es)) with (strings.Join (x :: es) "/").
    rewrite Split_Join by auto using Forall_valid_noSlash.
    rewrite cleanSteps_valid by done. by rewrite rev_app_distr, rev_involutive.
Qed.

Lemma Join_valid_inj (l l' : list string) :
  Forall (λ e, validName e = true) l → Forall (λ e, validName e = true) l' →
  strings.Join l "/" = strings.Join l' "/" → l = l'.
Proof.
  intros Hl Hl' Heq.
  destruct l as [|x l], l' as [|x' l']; [done| | |].
  - destruct (Join_valid_head (x' :: l')) as (c & s & Hj & _); [done..|].
    rewrite Hj in Heq. done.
  - destruct (Join_valid_head (x :: l)) as (c & s & Hj & _); [done..|].
    rewrite Hj in Heq. done.
  - rewrite <- (Split_Join (x :: l)), <- (Split_Join (x' :: l'))
      by auto using Forall_valid_noSlash.
    by rewrite Heq.
Qed.

(** Two paths of valid elements have one key only when they are one
    path. *)
Lemma Join_abs_inj (prefix : string) (es es' : list string) :
  filepath.IsAbs prefix = true →
  Forall (λ e, validName e = true) es → Forall (λ e, validName e = true) es' →
  filepath.Join [prefix; pathOf es] = filepath.Join [prefix; pathOf es'] →
  es = es'.
Proof.
  intros Habs Hes Hes'. rewrite !Join_abs_pathOf by done.
  intros [= Heq]. apply Join_valid_inj in Heq.
  - by apply app_inv_head in Heq.
  - apply Forall_app. split; [apply cleanElems_rooted_valid|done].
  - apply Forall_app. split; [apply cleanElems_rooted_valid|done].
Qed.

(** The elements of a cleaned rooted path are its own. *)
Lemma cleanElems_rooted_Join (l : list string) :
  Forall (λ e, validName e = true) l →
  filepath.cleanElems true (strings.Split ("/" +:+ strings.Join l "/") "/"%char)
  = l.
Proof.
  intros Hl.
  change ("/" +:+ strings.Join l "/") with ("" +:+ String "/"%char (strings.Join l "/")).
  rewrite Split_app_slash. change (strings.Split "" "/"%char) with [""].
  destruct l as [|x l]; [done|].
  rewrite Split_Join by auto using Forall_valid_noSlash.
  unfold filepath.cleanElems. rewrite fold_left_app.
  change (fold_left (filepath.cleanStep true) [""] []) with (@nil string).
  rewrite (cleanSteps_valid _ (x :: l)) by done.
  by rewrite app_nil_r, rev_involutive.
Qed.

Lemma find_other_name (x n1 : string) (rest : list (string * fs.FS)) (c : fs.FS) :
  fs.find x rest = Some c → existsb (String.eqb n1) rest.*1 = false →
  String.eqb n1 x = false.
Proof.
  induction rest as [|[n2 c2] rest IH]; [done|]. simpl.
  intros Hfind [Hn Hrest]%orb_false_iff.
  destruct (String.eqb_spec n2 x) as [->|]; [done|]. auto.
Qed.

(** In a well-formed tree an entry of the walk is what [lookup] finds at
    its elements. *)
Lemma entries_lookup (n : fs.FS) :
  ∀ es d, Forall (λ e, validName e = true) es → validNames n = true →
  ∀ p d', (p, d') ∈ entries (pathOf es) d n →
  (p, d') = (pathOf es, d)
  ∨ ∃ es1 node, es1 ≠ [] ∧ Forall (λ e, validName e = true) es1
                ∧ p = pathOf (es ++ es1)
                ∧ fs.lookup n es1 = Some node
                ∧ fs.IsDir d' = fs.isDirectory node.
Proof.
  induction n as [data|children IH] using FS_tree_ind; intros es d Hes Hn p d'.
  - simpl. intros ->%list_elem_of_singleton. by left.
  - simpl. intros [->|Hin]%elem_of_cons; [by left|]. right.
    simpl in Hn. revert Hn Hin.
    induction IH as [|[n1 c] children Hc _ IHch]; intros Hn Hin.
    + by apply elem_of_nil in Hin.
    + rewrite !andb_true_iff in Hn. destruct Hn as [[[Hn1 Huniq] Hvc] Hrest].
      apply negb_true_iff in Huniq.
      apply elem_of_app in Hin as [Hin|Hin].
      * rewrite Join_pathOf in Hin by done.
        simpl in Hc. apply (Hc (es ++ [n1])) in Hin as [[= -> ->]|Hin];
          [| |by apply Forall_app; auto|done].
        -- exists [n1], c. repeat split; [done|by constructor|].
           simpl. by rewrite String.eqb_refl.
        -- destruct Hin as (es1 & node & Hne & Hv & -> & Hlook & Hd).
           exists (n1 :: es1), node.
           repeat split; [done|by constructor|by rewrite <- app_assoc| |done].
           simpl. by rewrite String.eqb_refl.
      * destruct (IHch Hrest Hin) as (es1 & node & Hne & Hv & -> & Hlook & Hd).
        exists es1, node. repeat split; try done.
        destruct es1 as [|x tl]; [done|]. simpl in *.
        destruct (fs.find x children) as [c'|] eqn:Hfind; [|done].
        by rewrite (find_other_name x n1 children c' Hfind Huniq).
Qed.

Lemma lookup_app_directory (n : fs.FS) (a b : list string) (node : fs.FS) :
  b ≠ [] → fs.lookup n (a ++ b) = Some node →
  ∃ es, fs.lookup n a = Some (fs.Directory es).
Proof.
  revert n. induction a as [|x a IH]; intros n Hb Hlook.
  - destruct b as [|y b]; [done|]. destruct n as [|es]; [done|]. by exists es.
  - simpl in *. destruct n as [|es]; [done|].
    destruct (fs.find x es) as [c|]; [|done]. by apply IH.
Qed.

(** Every entry of a well-formed tree has the path of valid elements. *)
Lemma rootEntries_pathOf (fsys : fs.FS) (p : string) (d : fs.DirEntry) :
  validNames fsys = true → (p, d) ∈ rootEntries fsys →
  ∃ es, Forall (λ e, validName e = true) es ∧ p = pathOf es
        ∧ (es ≠ [] → ∃ node, fs.lookup fsys es = Some node).
Proof.
  intros Hv Hin.
  apply (entries_lookup fsys [] _ (Forall_nil_2 _) Hv) in Hin
    as [[= -> ->]|(es1 & node & Hne & Hes1 & -> & Hlook & _)].
  - exists []. by repeat split.
  - exists es1. repeat split; [done|]. eauto.
Qed.

Lemma toOverlay_walk_keeps prefix vfs l (ov0 ov : gmap string string) k b :
  walkList (toOverlayFn prefix vfs) l ov0 = (ov, fs.Nil) →
  ov0 !! k = Some b →
  (∀ p d, (p, d) ∈ l → fs.IsDir d = false → filepath.Join [prefix; p] = k →
          fs.ReadFile vfs p = inr b) →
  ov !! k = Some b.
Proof.
  revert ov0. induction l as [|[p d] l IH]; intros ov0 Hwalk Hk Hsame.
  - by injection Hwalk as <-.
  - rewrite walkList_cons in Hwalk. unfold toOverlayFn in Hwalk.
    assert (∀ p' d', (p', d') ∈ l → fs.IsDir d' = false →
              filepath.Join [prefix; p'] = k → fs.ReadFile vfs p' = inr b) as Hl.
    { intros p' d' Hin. apply Hsame. by right. }
    destruct (fs.IsDir d) eqn:Hd; [by eapply IH|].
    destruct (fs.ReadFile vfs p) as [e|b'] eqn:Hread; [done|].
    eapply IH; [done| |done]. rewrite lookup_insert. case_decide as Heq; [|done].
    assert ((p, d) ∈ (p, d) :: l) as Hhere by left.
    specialize (Hsame p d Hhere Hd Heq). congruence.
Qed.

(** When no two files of the walk share a key, the overlay holds at the key
    of each file the bytes of that file. *)
Lemma toOverlay_walk_content prefix vfs l (ov0 ov : gmap string string) :
  walkList (toOverlayFn prefix vfs) l ov0 = (ov, fs.Nil) →
  (∀ p d p' d', (p, d) ∈ l → (p', d') ∈ l →
     filepath.Join [prefix; p] = filepath.Join [prefix; p'] → p = p') →
  ∀ p d, (p, d) ∈ l → fs.IsDir d = false →
  ∃ b, fs.ReadFile vfs p = inr b ∧ ov !! filepath.Join [prefix; p] = Some b.
Proof.
  revert ov0. induction l as [|[q dq] l IH]; intros ov0 Hwalk Hinj p d Hin Hd.
  - by apply elem_of_nil in Hin.
  - rewrite walkList_cons in Hwalk. unfold toOverlayFn in Hwalk.
    assert (∀ p d p' d', (p, d) ∈ l → (p', d') ∈ l →
              filepath.Join [prefix; p] = filepath.Join [prefix; p'] → p = p')
      as Hinjl.
    { intros p1 d1 p2 d2 H1 H2. apply (Hinj p1 d1 p2 d2); by right. }
    apply elem_of_cons in Hin as [[= -> ->]|Hin].
    + rewrite Hd in Hwalk.
      destruct (fs.ReadFile vfs q) as [e|b] eqn:Hread; [done|].
      exists b. split; [done|].
      eapply toOverlay_walk_keeps; [done|by rewrite lookup_insert_eq|].
      intros p' d' Hin' _ Heq.
      assert (p' = q) as ->; [|done].
      eapply (Hinj p' d' q dq); [by right|left|done].
    + destruct (fs.IsDir dq); [by eapply IH|].
      destruct (fs.ReadFile vfs q) as [e|b]; [done|]. by eapply IH.
Qed.

Lemma toOverlay_Ok_abs `{ext : Externals} prefix vfs (ov0 ov : gmap string string) :
  toOverlay prefix vfs ov0 = Ok ov → filepath.IsAbs prefix = true.
Proof. unfold toOverlay. by destruct (filepath.IsAbs prefix). Qed.

(** For a well-formed tree the overlay holds the bytes of every regular
    file at the key of the file. *)
Lemma toOverlay_content `{ext : Externals} prefix vfs
    (ov0 ov : gmap string string) :
  validNames vfs = true → toOverlay prefix vfs ov0 = Ok ov →
  ∀ p d, (p, d) ∈ rootEntries vfs → fs.IsDir d = false →
  ∃ b, fs.ReadFile vfs p = inr b ∧ ov !! filepath.Join [prefix; p] = Some b.
Proof.
  intros Hv Hov. pose proof (toOverlay_Ok_abs _ _ _ _ Hov) as Habs.
  apply toOverlay_walkList in Hov.
  apply (toOverlay_walk_content _ _ _ _ _ Hov).
  intros p d p' d' Hin Hin' Heq.
  destruct (rootEntries_pathOf vfs p d Hv Hin) as (es & Hes & -> & _).
  destruct (rootEntries_pathOf vfs p' d' Hv Hin') as (es' & Hes' & -> & _).
  by rewrite (Join_abs_inj prefix es es' Habs Hes Hes' Heq).
Qed.

(** What the overlay held at a key that no file of the tree has is kept. *)
Lemma toOverlay_other_keys `{ext : Externals} prefix vfs
    (ov0 ov : gmap string string) k b :
  toOverlay prefix vfs ov0 = Ok ov → ov0 !! k = Some b →
  (∀ p d, (p, d) ∈ rootEntries vfs → fs.IsDir d = false →
          filepath.Join [prefix; p] ≠ k) →
  ov !! k = Some b.
Proof.
  intros Hov%toOverlay_walkList Hk Hne.
  eapply toOverlay_walk_keeps; [done..|].
  intros p d Hin Hd Heq. by destruct (Hne p d Hin Hd).
Qed.

(** In a module that [findModule] accepts, no file of thema is overlaid at
    the key of a file of the module. *)
Lemma thema_keys_apart `{ext : Externals} (modFS : fs.FS) (modname : string)
    (p q : string) (d dq : fs.DirEntry) :
  validNames modFS = true → validNames CueFS = true →
  fs.isDirectory CueFS = true →
  findModule modFS = Ok modname →
  (p, d) ∈ rootEntries modFS → (q, dq) ∈ rootEntries CueFS →
  fs.IsDir dq = false →
  filepath.Join [filepath.Join [filepath.Join ["/"; modname]; themamodpath]; q]
  ≠ filepath.Join [filepath.Join ["/"; modname]; p].
Proof.
  intros Hv Hvl Hdir Hfind Hp Hq Hdq Heq.
  set (modroot := filepath.Join ["/"; modname]) in *.
  assert (filepath.IsAbs modroot = true) as Habs by by apply Join_abs.
  destruct (rootEntries_pathOf modFS p d Hv Hp) as (es & Hes & -> & Hlook).
  apply (entries_lookup CueFS [] _ (Forall_nil_2 _) Hvl) in Hq
    as [[= -> ->]|(qs & node & Hne & Hqs & -> & _ & _)].
  { simpl in Hdq. congruence. }
  assert (Forall (λ e, validName e = true) themamodElems) as HT
    by (repeat constructor).
  change themamodpath with (pathOf themamodElems) in Heq.
  rewrite (Join_abs_pathOf modroot themamodElems Habs HT) in Heq.
  set (B := filepath.cleanElems true (strings.Split modroot "/"%char)) in *.
  assert (Forall (λ e, validName e = true) B) as HB
    by apply cleanElems_rooted_valid.
  assert (filepath.IsAbs ("/" +:+ strings.Join (B ++ themamodElems) "/") = true)
    as Habs2 by (unfold filepath.IsAbs; rewrite app_cons; apply HasPrefix_slash).
  change ([] ++ qs) with qs in Heq.
  rewrite (Join_abs_pathOf _ qs Habs2 Hqs) in Heq.
  rewrite cleanElems_rooted_Join in Heq by (apply Forall_app; auto).
  rewrite (Join_abs_pathOf modroot es Habs Hes) in Heq. fold B in Heq.
  injection Heq as Heq. apply Join_valid_inj in Heq;
    [|repeat (apply Forall_app; split); done..].
  rewrite <- app_assoc in Heq. apply app_inv_head in Heq. subst es.
  destruct Hlook as [node' Hlook]; [done|].
  apply lookup_app_directory in Hlook as [es0 Hlook]; [|done].
  by destruct (proj1 (vendored_thema_rejected modFS es0 "" "" Hlook) modname).
Qed.

(** C2, as the code has it. For well-formed trees, once the module file
    declares [modname] and the overlay is built, [modname] is not empty and
    keys are formed with [filepath.Join]: for a module other than
    thema the overlay holds, at the module root joined with its path, the
    bytes of every regular file of the input tree, and below
    [cue.mod/pkg/github.com/grafana/thema] of the module root the bytes of
    every file of [thema.CueFS]; for thema itself it holds at the module
    root the bytes of every file of [thema.CueJointFS], every file of the
    input tree has an entry, and an input file keeps its own bytes when the
    joint sources have no file at its path. *)
Theorem themaOverlay_contents `{ext : Externals}
    (modFS : fs.FS) (modname : string) (overlay : gmap string string) :
  validNames modFS = true → validNames CueFS = true →
  validNames CueJointFS = true → fs.isDirectory CueFS = true →
  findModule modFS = Ok modname →
  themaOverlay modFS modname = Ok overlay →
  let modroot := filepath.Join ["/"; modname] in
  modname ≠ ""
  ∧ (modname ≠ themaModule →
   (∀ p d, (p, d) ∈ rootEntries modFS → fs.IsDir d = false →
      ∃ b, fs.ReadFile modFS p = inr b
           ∧ overlay !! filepath.Join [modroot; p] = Some b)
   ∧ (∀ p d, (p, d) ∈ rootEntries CueFS → fs.IsDir d = false →
        ∃ b, fs.ReadFile CueFS p = inr b
             ∧ overlay !! filepath.Join [filepath.Join [modroot; themamodpath]; p]
               = Some b))
  ∧ (modname = themaModule →
     (∀ p d, (p, d) ∈ rootEntries CueJointFS → fs.IsDir d = false →
        ∃ b, fs.ReadFile CueJointFS p = inr b
             ∧ overlay !! filepath.Join [modroot; p] = Some b)
     ∧ (∀ p d, (p, d) ∈ rootEntries modFS → fs.IsDir d = false →
          is_Some (overlay !! filepath.Join [modroot; p])
          ∧ ((∀ d', (p, d') ∈ rootEntries CueJointFS → fs.IsDir d' = true) →
             ∃ b, fs.ReadFile modFS p = inr b
                  ∧ overlay !! filepath.Join [modroot; p] = Some b))).
Proof.
  intros Hv Hvl Hvj Hdir Hfind Hov modroot.
  split; [by eapply findModule_nonempty|].
  unfold themaOverlay, filepath.FromSlash in Hov. fold modroot in Hov.
  destruct (toOverlay modroot modFS ∅) as [ov1| |] eqn:H1; try done.
  simpl in Hov.
  pose proof (toOverlay_content _ _ _ _ Hv H1) as Hc1.
  destruct (String.eqb_spec modname themaModule) as [Heq|Hne];
    (split; [intros Hne'|intros Heq']); try done.
  - split.
    + intros p d Hin Hd.
      destruct (toOverlay_content _ _ _ _ Hvj Hov p d Hin Hd) as (b & ? & ?).
      eauto.
    + intros p d Hin Hd. destruct (Hc1 p d Hin Hd) as (b & Hread & Hk). split.
      * apply (toOverlay_keys _ _ _ _ Hov). eauto.
      * intros Hfree. exists b. split; [done|].
        eapply toOverlay_other_keys; [done..|].
        intros q dq Hq Hdq Hkey.
        pose proof (toOverlay_Ok_abs _ _ _ _ Hov) as Habs.
        destruct (rootEntries_pathOf modFS p d Hv Hin) as (es & Hes & -> & _).
        destruct (rootEntries_pathOf CueJointFS q dq Hvj Hq) as (qs & Hqs & -> & _).
        apply Join_abs_inj in Hkey; [|done..]. subst qs.
        specialize (Hfree dq Hq). congruence.
  - split.
    + intros p d Hin Hd.
      destruct (Hc1 p d Hin Hd) as (b & Hread & Hk).
      exists b. split; [done|].
      apply (toOverlay_other_keys _ _ _ _ _ _ Hov Hk).
      intros q dq Hq Hdq.
      exact (thema_keys_apart modFS modname p q d dq Hv Hvl Hdir Hfind Hin Hq Hdq).
    + intros p d Hin Hd.
      destruct (toOverlay_content _ _ _ _ Hvl Hov p d Hin Hd) as (b & ? & ?).
      eauto.
Qed.

Lemma themaOverlay_contents_witness :
  (∃ b, fs.ReadFile pluginTree "public/app/plugins/panel/gauge/models.cue" = inr b
        ∧ pluginOverlay
          !! "/github.com/grafana/grafana/public/app/plugins/panel/gauge/models.cue"
          = Some b)
  ∧ (∃ b, fs.ReadFile toyLibrary "lineage.cue" = inr b
          ∧ pluginOverlay
            !! "/github.com/grafana/grafana/cue.mod/pkg/github.com/grafana/thema/lineage.cue"
            = Some b).
Proof.
  assert (themaOverlay (ext := toyExternals emptyFS oneInstance) pluginTree
            "github.com/grafana/grafana" = Ok pluginOverlay) as Hov.
  { assert (match themaOverlay (ext := toyExternals emptyFS oneInstance) pluginTree
                    "github.com/grafana/grafana" with
            | Ok _ => True | _ => False end) as H by (vm_compute; exact I).
    unfold pluginOverlay.
    by destruct (themaOverlay (ext := toyExternals emptyFS oneInstance) pluginTree
                   "github.com/grafana/grafana"). }
  destruct (themaOverlay_contents (ext := toyExternals emptyFS oneInstance)
              pluginTree "github.com/grafana/grafana" pluginOverlay)
    as (_ & Hother & _); [vm_compute; reflexivity..|exact Hov|].
  destruct Hother as [Hin Hlib]; [done|]. split.
  - apply (Hin "public/app/plugins/panel/gauge/models.cue"
             {| fs.Name := "models.cue"; fs.IsDir := false |}); [|done].
    apply list_elem_of_lookup. exists 8%nat. vm_compute. reflexivity.
  - apply (Hlib "lineage.cue"
             {| fs.Name := "lineage.cue"; fs.IsDir := false |}); [|done].
    apply list_elem_of_lookup. exists 1%nat. vm_compute. reflexivity.
Defined.

(** C2, as it is stated, fails for the thema module itself: the joint
    sources are overlaid at the module root after the input tree, and the
    input file [lineage.cue] has the bytes of the joint sources in the
    overlay, no longer its own. *)
Lemma self_hosted_file_replaced :
  let ext := toyExternals emptyFS oneInstance in
  findModule (ext := ext) selfHostedTree = Ok themaModule
  ∧ fs.ReadFile selfHostedTree "lineage.cue" = inr "package mine"
  ∧ match themaOverlay (ext := ext) selfHostedTree themaModule with
    | Ok overlay =>
        overlay !! filepath.Join [filepath.Join ["/"; themaModule]; "lineage.cue"]
        = Some "package thema"
    | _ => False
    end.
Proof. vm_compute. done. Qed.
